(** * Camera client (components/camera/client.go)

    A shallow embedding of the camera client adapter: the format dispatch of
    [Images], the mimetype negotiation of [Read], the properties resolver
    ([Properties], [Projector]) and the generation-scoped stream lifecycle
    ([Stream], [Close] and the background worker), the latter as an
    interleaving transition system over the client's shared state. *)

From Stdlib Require Import ZArith Floats.
From stdpp Require Import base option list list_numbers strings gmap.

Open Scope Z_scope.
Open Scope string_scope.
Open Scope list_scope.

(** ** Go results *)

(** A Go [(T, error)] return: errors are carried as their message. *)
Inductive result (A : Type) : Type :=
| Ok (a : A)
| Err (e : string).
Arguments Ok {A} a.
Arguments Err {A} e.

Definition is_err {A} (r : result A) : bool :=
  match r with Ok _ => false | Err _ => true end.

Definition bytes := list Byte.byte.

(** ** Images: [image.Image] values handled by the client *)

(** What [image.Decode] produces is opaque to the client. *)
Record pixels := Pixels { px_format : string; px_data : bytes }.

(** [image.Image] as the client sees it: the nil interface value, a
    [rimage.LazyEncodedImage] holding undecoded bytes and a mimetype, or an
    eagerly decoded picture. *)
Inductive image : Type :=
| NilImage
| LazyEncodedImage (imgBytes : bytes) (mimeType : string)
| DecodedImage (p : pixels).

(** [rimage.NewLazyEncodedImage] only stores its arguments. *)
Definition NewLazyEncodedImage (imgBytes : bytes) (mimeType : string) : image :=
  LazyEncodedImage imgBytes mimeType.

Definition image_is_lazy (i : image) : bool :=
  match i with LazyEncodedImage _ _ => true | _ => false end.

(** Modelled from the spec: the mimetype constants of package [utils] are not
    under src/; each recognized format tag has "the corresponding mimetype". *)
Definition MimeTypeRawRGBA : string := "image/vnd.viam.rgba".
Definition MimeTypeRawDepth : string := "image/vnd.viam.dep".
Definition MimeTypeJPEG : string := "image/jpeg".
Definition MimeTypePNG : string := "image/png".

(** ** The wire format enumeration ([pb.Format], an int32) *)

Definition Format := Z.
Definition Format_FORMAT_UNSPECIFIED : Format := 0.
Definition Format_FORMAT_RAW_RGBA : Format := 1.
Definition Format_FORMAT_RAW_DEPTH : Format := 2.
Definition Format_FORMAT_JPEG : Format := 3.
Definition Format_FORMAT_PNG : Format := 4.

(** The fixed enumeration {unspecified, raw-RGBA, raw-depth, JPEG, PNG}. *)
Definition in_enumeration (f : Format) : bool :=
  bool_decide (f ∈ [Format_FORMAT_UNSPECIFIED; Format_FORMAT_RAW_RGBA;
                    Format_FORMAT_RAW_DEPTH; Format_FORMAT_JPEG;
                    Format_FORMAT_PNG]).

Definition recognized (f : Format) : bool :=
  bool_decide (f ∈ [Format_FORMAT_RAW_RGBA; Format_FORMAT_RAW_DEPTH;
                    Format_FORMAT_JPEG; Format_FORMAT_PNG]).

(** The mimetype the spec pairs with each recognized tag. *)
Definition corresponding_mimetype (f : Format) : string :=
  if decide (f = Format_FORMAT_RAW_RGBA) then MimeTypeRawRGBA
  else if decide (f = Format_FORMAT_RAW_DEPTH) then MimeTypeRawDepth
  else if decide (f = Format_FORMAT_JPEG) then MimeTypeJPEG
  else MimeTypePNG.

Record pbImage := {
  img_SourceName : string;
  img_Format : Format;
  img_Image : bytes }.

Record ResponseMetadata := { CapturedAt : Z }.

Record GetImagesResponse := {
  resp_Images : list pbImage;
  resp_ResponseMetadata : ResponseMetadata }.

Record NamedImage := { ni_Image : image; ni_SourceName : string }.

Module Images.
Section WithDecoder.
(** Go's [image.Decode], the generic sniffing decoder (standard library). *)
Variable image_Decode : bytes → result pixels.

(** The body of the [switch img.Format] statement: the value left in
    [rdkImage], or the error returned from inside the switch.  There is no
    [default] branch: any other tag leaves [rdkImage] at its declared zero
    value, the nil image. *)
Definition dispatch (img : pbImage) : result image :=
  let f := img_Format img in
  if decide (f = Format_FORMAT_RAW_RGBA) then
    Ok (NewLazyEncodedImage (img_Image img) MimeTypeRawRGBA)
  else if decide (f = Format_FORMAT_RAW_DEPTH) then
    Ok (NewLazyEncodedImage (img_Image img) MimeTypeRawDepth)
  else if decide (f = Format_FORMAT_JPEG) then
    Ok (NewLazyEncodedImage (img_Image img) MimeTypeJPEG)
  else if decide (f = Format_FORMAT_PNG) then
    Ok (NewLazyEncodedImage (img_Image img) MimeTypePNG)
  else if decide (f = Format_FORMAT_UNSPECIFIED) then
    match image_Decode (img_Image img) with
    | Ok p => Ok (DecodedImage p)
    | Err e => Err e
    end
  else Ok NilImage.

(** The [for _, img := range resp.Images] loop, [images] being the slice
    appended to so far. *)
Fixpoint loop (todo : list pbImage) (images : list NamedImage)
  : result (list NamedImage) :=
  match todo with
  | [] => Ok images
  | img :: rest =>
      match dispatch img with
      | Err e => Err e
      | Ok rdkImage =>
          loop rest (images ++ [{| ni_Image := rdkImage;
                                   ni_SourceName := img_SourceName img |}])
      end
  end.

(** One converted entry: the image comes from the dispatch, the source
    name is copied. *)
Definition converts (img : pbImage) (ni : NamedImage) : Prop :=
  dispatch img = Ok (ni_Image ni) ∧ ni_SourceName ni = img_SourceName img.

(** [Images], given the outcome of the [GetImages] call. *)
Definition Images (rpc : result GetImagesResponse)
  : result (list NamedImage * ResponseMetadata) :=
  match rpc with
  | Err e =>
      Err ("camera client: could not gets images from the camera: " +:+ e)
  | Ok resp =>
      match loop (resp_Images resp) [] with
      | Err e => Err e
      | Ok images => Ok (images, resp_ResponseMetadata resp)
      end
  end.
End WithDecoder.
End Images.

(** ** Read: single image with mimetype negotiation *)

(** Modelled from the spec: [utils.WithLazyMIMEType] and
    [utils.CheckLazyMIMEType] are not under src/.  A mimetype is a string
    "optionally qualified lazy"; the qualifier is carried as the suffix
    [+lazy]. *)
Definition MimeTypeSuffixLazy : string := "lazy".

Definition WithLazyMIMEType (mimeType : string) : string :=
  mimeType +:+ "+" +:+ MimeTypeSuffixLazy.

Fixpoint trim_suffix (suffix s : string) : option string :=
  if String.eqb s suffix then Some ""
  else match s with
       | EmptyString => None
       | String c s' => String c <$> trim_suffix suffix s'
       end.

(** Modelled from the spec: splits a mimetype into its unqualified part and
    whether it carried the lazy qualifier. *)
Definition CheckLazyMIMEType (mimeType : string) : string * bool :=
  match trim_suffix ("+" +:+ MimeTypeSuffixLazy) mimeType with
  | Some base => (base, true)
  | None => (mimeType, false)
  end.

(** The request context, as far as the client reads it: the mimetype hint
    ([gostream.WithMIMETypeHint]), the extra parameters attached with
    [NewContext] together with the outcome of their conversion to a
    protobuf struct, and the outcome of [data.GetExtraFromContext]. *)
Record context := {
  ctx_mimeHint : option string;
  ctx_extra : option (result (gmap string string));
  ctx_dataExtra : result (gmap string string) }.

(** [gostream.MIMETypeHint ctx defaultType]. *)
Definition MIMETypeHint (ctx : context) (defaultType : string) : string :=
  default defaultType (ctx_mimeHint ctx).

(** [proto.Merge dst src]: the fields of [src] are set in [dst]. *)
Definition proto_Merge (dst src : gmap string string) : gmap string string :=
  src ∪ dst.

Definition getExtra (ctx : context) : result (gmap string string) :=
  match (match ctx_extra ctx with
         | Some conv => conv
         | None => Ok ∅
         end) with
  | Err e => Err e
  | Ok ext =>
      match ctx_dataExtra ctx with
      | Err e => Err e
      | Ok dataExt => Ok (proto_Merge ext dataExt)
      end
  end.

Record GetImageRequest := {
  gireq_Name : string;
  gireq_MimeType : string;
  gireq_Extra : gmap string string }.

Record GetImageResponse := {
  gi_MimeType : string;
  gi_Image : bytes }.

(** One [logger.CDebugw] record. *)
Record debug_entry := {
  dbg_msg : string;
  dbg_sent : string;
  dbg_received : string }.

Module Read.
Section WithCodec.
(** The eager codecs behind [rimage.DecodeImage], by unqualified mimetype. *)
Variable decode_as : string → bytes → result pixels.
(** The remote end of [c.client.GetImage]. *)
Variable GetImage : GetImageRequest → result GetImageResponse.

(** Modelled from the spec: [rimage.DecodeImage] is not under src/.  A
    lazily qualified mimetype wraps the bytes without decoding ("carrying
    only bytes + format tag"); otherwise the bytes are decoded now. *)
Definition DecodeImage (imgBytes : bytes) (mimeType : string) : result image :=
  match CheckLazyMIMEType mimeType with
  | (base, true) => Ok (NewLazyEncodedImage imgBytes base)
  | (base, false) =>
      match decode_as base imgBytes with
      | Ok p => Ok (DecodedImage p)
      | Err e => Err e
      end
  end.

(** The mimetype comparison of [Read]: the value of [resp.MimeType] after
    the [if]/[else], and what was logged. *)
Definition negotiate (mimeType expectedType received : string)
  : string * list debug_entry :=
  if decide (received ≠ expectedType) then
    (received,
     [ {| dbg_msg := "got different MIME type than what was asked for";
          dbg_sent := expectedType; dbg_received := received |} ])
  else (mimeType, []).

(** [Read]: the image and error returned (the release function is the
    empty closure) and the debug records written. *)
Definition Read (name : string) (ctx : context)
  : result image * list debug_entry :=
  let mimeType := MIMETypeHint ctx "" in
  let expectedType := fst (CheckLazyMIMEType mimeType) in
  match getExtra ctx with
  | Err e => (Err e, [])
  | Ok ext =>
      match GetImage {| gireq_Name := name; gireq_MimeType := expectedType;
                        gireq_Extra := ext |} with
      | Err e => (Err e, [])
      | Ok resp =>
          let '(respMime, logged) :=
            negotiate mimeType expectedType (gi_MimeType resp) in
          let respMime := WithLazyMIMEType respMime in
          (DecodeImage (gi_Image resp) respMime, logged)
      end
  end.
End WithCodec.
End Read.

(** ** Properties and Projector *)

Record IntrinsicParameters := {
  WidthPx : Z;
  HeightPx : Z;
  FocalXPx : float;
  FocalYPx : float;
  CenterXPx : float;
  CenterYPx : float }.

Record DistortionParameters := {
  dp_Model : string;
  dp_Parameters : list float }.

Record GetPropertiesResponse := {
  pr_SupportsPcd : bool;
  pr_IntrinsicParameters : option IntrinsicParameters;
  pr_DistortionParameters : option DistortionParameters;
  pr_MimeTypes : list string }.

Record PinholeCameraIntrinsics := {
  Width : Z;
  Height : Z;
  Fx : float;
  Fy : float;
  Ppx : float;
  Ppy : float }.

(** A distortion-model instance: the model it was built for and the
    parameters its constructor kept. *)
Record Distorter := {
  ModelType : string;
  Parameters : list float }.

Record Properties := {
  SupportsPCD : bool;
  IntrinsicParams : option PinholeCameraIntrinsics;
  DistortionParams : option Distorter;
  MimeTypes : list string }.

(** [Properties{}], the zero value. *)
Definition zero_Properties : Properties :=
  {| SupportsPCD := false; IntrinsicParams := None;
     DistortionParams := None; MimeTypes := [] |}.

Module Resolver.
Section WithRegistry.
(** The distortion-model registry: model name to constructor. *)
Variable registry : gmap string (list float → result Distorter).
(** [PinholeCameraIntrinsics.CheckValid] of package [transform], a
    pointer-receiver method called on a possibly nil pointer; [None] is the
    nil error. *)
Variable CheckValid : option PinholeCameraIntrinsics → option string.

(** Modelled from the spec: [transform.NewDistorter] is not under src/.  It
    "resolves the name against a pluggable registry (name → constructor)
    using the supplied parameter list; unknown name or malformed
    parameters" give an error. *)
Definition NewDistorter (model : string) (parameters : list float)
  : result Distorter :=
  match registry !! model with
  | None => Err ("do not know how to parse distortion model " +:+ model)
  | Some construct => construct parameters
  end.

Definition intrinsics_of_proto (i : IntrinsicParameters)
  : PinholeCameraIntrinsics :=
  {| Width := WidthPx i; Height := HeightPx i;
     Fx := FocalXPx i; Fy := FocalYPx i;
     Ppx := CenterXPx i; Ppy := CenterYPx i |}.

(** [Properties], given the outcome of the [GetProperties] call.  In Go the
    returned pair is [(Properties, error)]; [properties_value] below reads
    the first component back. *)
Definition Properties_pair (rpc : result GetPropertiesResponse)
  : Properties * option string :=
  let result := zero_Properties in
  match rpc with
  | Err e => (zero_Properties, Some e)
  | Ok resp =>
      let result :=
        match pr_IntrinsicParameters resp with
        | Some intrinsics =>
            {| SupportsPCD := SupportsPCD result;
               IntrinsicParams := Some (intrinsics_of_proto intrinsics);
               DistortionParams := DistortionParams result;
               MimeTypes := MimeTypes result |}
        | None => result
        end in
      let result :=
        {| SupportsPCD := pr_SupportsPcd resp;
           IntrinsicParams := IntrinsicParams result;
           DistortionParams := DistortionParams result;
           MimeTypes := pr_MimeTypes resp |} in
      match pr_DistortionParameters resp with
      | None => (result, None)
      | Some dp =>
          if decide (dp_Model dp = "") then (result, None)
          else
            match NewDistorter (dp_Model dp) (dp_Parameters dp) with
            | Err e => (zero_Properties, Some e)
            | Ok distorter =>
                ({| SupportsPCD := SupportsPCD result;
                    IntrinsicParams := IntrinsicParams result;
                    DistortionParams := Some distorter;
                    MimeTypes := MimeTypes result |}, None)
            end
      end
  end.

(** [Projector]: the projector is the intrinsics pointer itself. *)
Definition Projector (rpc : result GetPropertiesResponse)
  : option (option PinholeCameraIntrinsics) * option string :=
  match Properties_pair rpc with
  | (_, Some err) => (None, Some err)
  | (props, None) =>
      let intrinsics := IntrinsicParams props in
      match CheckValid intrinsics with
      | Some err => (None, Some err)
      | None => (Some intrinsics, None)
      end
  end.
End WithRegistry.
End Resolver.

(** A registry with one model, whose constructor takes at most five
    coefficients, and a validity check that rejects the nil pointer and
    empty image sizes; used to exercise the resolver on concrete inputs. *)
Definition sample_registry : gmap string (list float → result Distorter) :=
  {[ "brown_conrady" :=
       λ parameters,
         if decide (length parameters ≤ 5)%nat
         then Ok {| ModelType := "brown_conrady"; Parameters := parameters |}
         else Err "list of parameters too long" ]}.

Definition sample_CheckValid (p : option PinholeCameraIntrinsics)
    : option string :=
  match p with
  | None => Some "pointer to intrinsic parameters is nil"
  | Some i =>
      if decide (Width i = 0 ∨ Height i = 0)%Z then Some "invalid size"
      else None
  end.

(** ** Stream lifecycle: [Stream], [Close] and the background worker

    The client's shared state and the goroutines running [Stream], [Close]
    and the worker closure, as an interleaving transition system.  Every
    statement that touches shared state ([c.mu], [c.healthyClientCh],
    [c.activeBackgroundWorkers], the channels) is one step; a scheduler
    picks which goroutine moves.

    The runtime is taken at the level of the Go memory model: [sync.Mutex]
    is a lock, [sync.WaitGroup] an atomic counter on which [Wait] returns
    at zero and [Done] below zero panics, [close] of a closed channel
    panics, and [select] takes any case that is ready.  [frameCh] is
    unbuffered, so a send completes when the consumer receives.

    Not part of the model: the WaitGroup's own detection of misuse.  The
    Go runtime panics when an [Add] with a positive delta raises the
    counter from zero while a [Wait] is under way; here [Add(1)] just
    raises the counter and [Wait] just waits for zero.  [Stream] calls
    [Add(1)] outside the mutex, so this can only happen while a [Stream]
    call is in progress next to a [Close] call; the statement about panics
    is made for the runs in which it cannot.  Panics inside [Read] or an
    error handler are not modelled either (the goroutine runs under
    [PanicCapturingGo] and its deferred calls run all the same). *)

Close Scope Z_scope.

(** The identity of a [chan struct{}] made by [make]; goroutine ids are
    positions in the goroutine table. *)
Abbreviation chan := nat (only parsing).
Abbreviation tid := nat (only parsing).
(** A [gostream.ErrorHandler], by identity. *)
Abbreviation handler := nat (only parsing).

(** Where a [Stream] call stands: the statement it executes next.  From
    [SUnlock] on it carries its local [healthyClientCh]. *)
Inductive stream_pc :=
| SLock                      (* c.mu.Lock() *)
| SEnsure                    (* if c.healthyClientCh == nil {...}; healthyClientCh := ... *)
| SUnlock (hc : chan)        (* c.mu.Unlock() *)
| SNewStream (hc : chan)     (* gostream.NewMediaStreamForChannel *)
| SAdd (hc : chan)           (* c.activeBackgroundWorkers.Add(1) *)
| SGo (hc : chan)            (* goutils.PanicCapturingGo(...) *)
| SReturned (worker : tid).  (* return stream, nil *)

(** Where a [Close] call stands. *)
Inductive close_pc :=
| CLock          (* c.mu.Lock() *)
| CCloseSignal   (* if c.healthyClientCh != nil { close(c.healthyClientCh) } *)
| CWait          (* c.activeBackgroundWorkers.Wait() *)
| CClear         (* c.healthyClientCh = nil *)
| CUnlock        (* deferred c.mu.Unlock() *)
| CReturned.     (* return nil *)

(** Where a worker stands.  At [WSelect] it holds the pair it offers to
    [frameCh]: the frame ([NilImage] for nil) and the error. *)
Inductive worker_pc :=
| WCheck                                       (* if streamCtx.Err() != nil *)
| WRead                                        (* c.Read(streamCtx), handlers *)
| WSelect (frame : image) (err : option string) (* select { ... } *)
| WCloseFrameCh                                (* deferred close(frameCh) *)
| WDone                                        (* deferred activeBackgroundWorkers.Done() *)
| WExited.

Record worker := {
  w_pc : worker_pc;
  w_healthyClientCh : chan;        (* the generation signal captured by Stream *)
  w_errHandlers : list handler;
  w_ctxDone : bool;                (* streamCtx has been cancelled *)
  w_frameChClosed : bool;
  w_delivered : list (image * option string);  (* pairs received from frameCh *)
  w_handled : list (handler * string) }.       (* handler invocations so far *)

Inductive thread :=
| TStream (pc : stream_pc) (errHandlers : list handler)
| TClose (pc : close_pc)
| TWorker (w : worker).

Record client := {
  mu : bool;                        (* c.mu is held *)
  healthyClientCh : option chan;    (* nil or the current generation signal *)
  activeBackgroundWorkers : nat;    (* the WaitGroup counter *)
  closed : list chan;               (* channels close() has run on *)
  next_chan : chan;                 (* the next make(chan struct{}) *)
  threads : list thread;
  panicked : bool }.

(** The client as [NewClientFromConn] leaves it. *)
Definition new_client : client :=
  {| mu := false; healthyClientCh := None; activeBackgroundWorkers := 0;
     closed := []; next_chan := 0; threads := []; panicked := false |}.

Definition set_mu (b : bool) (c : client) : client :=
  {| mu := b; healthyClientCh := healthyClientCh c;
     activeBackgroundWorkers := activeBackgroundWorkers c;
     closed := closed c; next_chan := next_chan c;
     threads := threads c; panicked := panicked c |}.

Definition set_healthyClientCh (h : option chan) (c : client) : client :=
  {| mu := mu c; healthyClientCh := h;
     activeBackgroundWorkers := activeBackgroundWorkers c;
     closed := closed c; next_chan := next_chan c;
     threads := threads c; panicked := panicked c |}.

Definition set_activeBackgroundWorkers (n : nat) (c : client) : client :=
  {| mu := mu c; healthyClientCh := healthyClientCh c;
     activeBackgroundWorkers := n;
     closed := closed c; next_chan := next_chan c;
     threads := threads c; panicked := panicked c |}.

Definition set_closed (l : list chan) (c : client) : client :=
  {| mu := mu c; healthyClientCh := healthyClientCh c;
     activeBackgroundWorkers := activeBackgroundWorkers c;
     closed := l; next_chan := next_chan c;
     threads := threads c; panicked := panicked c |}.

Definition set_next_chan (n : chan) (c : client) : client :=
  {| mu := mu c; healthyClientCh := healthyClientCh c;
     activeBackgroundWorkers := activeBackgroundWorkers c;
     closed := closed c; next_chan := n;
     threads := threads c; panicked := panicked c |}.

Definition set_threads (l : list thread) (c : client) : client :=
  {| mu := mu c; healthyClientCh := healthyClientCh c;
     activeBackgroundWorkers := activeBackgroundWorkers c;
     closed := closed c; next_chan := next_chan c;
     threads := l; panicked := panicked c |}.

Definition panic (c : client) : client :=
  {| mu := mu c; healthyClientCh := healthyClientCh c;
     activeBackgroundWorkers := activeBackgroundWorkers c;
     closed := closed c; next_chan := next_chan c;
     threads := threads c; panicked := true |}.

(** Goroutine [t] moves on to [th]. *)
Definition goto (t : tid) (th : thread) (c : client) : client :=
  set_threads (<[t := th]> (threads c)) c.

Definition set_pc (p : worker_pc) (w : worker) : worker :=
  {| w_pc := p; w_healthyClientCh := w_healthyClientCh w;
     w_errHandlers := w_errHandlers w; w_ctxDone := w_ctxDone w;
     w_frameChClosed := w_frameChClosed w; w_delivered := w_delivered w;
     w_handled := w_handled w |}.

Definition cancel (w : worker) : worker :=
  {| w_pc := w_pc w; w_healthyClientCh := w_healthyClientCh w;
     w_errHandlers := w_errHandlers w; w_ctxDone := true;
     w_frameChClosed := w_frameChClosed w; w_delivered := w_delivered w;
     w_handled := w_handled w |}.

Definition close_frameCh (w : worker) : worker :=
  {| w_pc := w_pc w; w_healthyClientCh := w_healthyClientCh w;
     w_errHandlers := w_errHandlers w; w_ctxDone := w_ctxDone w;
     w_frameChClosed := true; w_delivered := w_delivered w;
     w_handled := w_handled w |}.

Definition deliver (p : image * option string) (w : worker) : worker :=
  {| w_pc := w_pc w; w_healthyClientCh := w_healthyClientCh w;
     w_errHandlers := w_errHandlers w; w_ctxDone := w_ctxDone w;
     w_frameChClosed := w_frameChClosed w;
     w_delivered := w_delivered w ++ [p];
     w_handled := w_handled w |}.

Definition handle (calls : list (handler * string)) (w : worker) : worker :=
  {| w_pc := w_pc w; w_healthyClientCh := w_healthyClientCh w;
     w_errHandlers := w_errHandlers w; w_ctxDone := w_ctxDone w;
     w_frameChClosed := w_frameChClosed w; w_delivered := w_delivered w;
     w_handled := w_handled w ++ calls |}.

(** The goroutine [Stream] starts: at the top of its loop, bound to the
    captured signal, on a stream context that is not cancelled and an open
    [frameCh]. *)
Definition new_worker (hc : chan) (errHandlers : list handler) : worker :=
  {| w_pc := WCheck; w_healthyClientCh := hc; w_errHandlers := errHandlers;
     w_ctxDone := false; w_frameChClosed := false; w_delivered := [];
     w_handled := [] |}.

(** One statement of a [Stream] call. *)
Definition step_Stream (t : tid) (pc : stream_pc) (hs : list handler)
    (c : client) : option client :=
  match pc with
  | SLock =>
      if mu c then None else Some (goto t (TStream SEnsure hs) (set_mu true c))
  | SEnsure =>
      match healthyClientCh c with
      | None =>
          let ch := next_chan c in
          Some (goto t (TStream (SUnlock ch) hs)
                  (set_healthyClientCh (Some ch) (set_next_chan (S ch) c)))
      | Some ch => Some (goto t (TStream (SUnlock ch) hs) c)
      end
  | SUnlock hc => Some (goto t (TStream (SNewStream hc) hs) (set_mu false c))
  | SNewStream hc => Some (goto t (TStream (SAdd hc) hs) c)
  | SAdd hc =>
      Some (goto t (TStream (SGo hc) hs)
              (set_activeBackgroundWorkers (S (activeBackgroundWorkers c)) c))
  | SGo hc =>
      let w := length (threads c) in
      Some (set_threads
              (<[t := TStream (SReturned w) hs]> (threads c)
               ++ [TWorker (new_worker hc hs)]) c)
  | SReturned _ => None
  end.

(** One statement of a [Close] call.  Closing a closed channel panics;
    [Wait] proceeds only at counter zero. *)
Definition step_Close (t : tid) (pc : close_pc) (c : client) : option client :=
  match pc with
  | CLock =>
      if mu c then None else Some (goto t (TClose CCloseSignal) (set_mu true c))
  | CCloseSignal =>
      match healthyClientCh c with
      | Some ch =>
          if bool_decide (ch ∈ closed c) then Some (panic c)
          else Some (goto t (TClose CWait) (set_closed (ch :: closed c) c))
      | None => Some (goto t (TClose CWait) c)
      end
  | CWait =>
      match activeBackgroundWorkers c with
      | 0 => Some (goto t (TClose CClear) c)
      | S _ => None
      end
  | CClear => Some (goto t (TClose CUnlock) (set_healthyClientCh None c))
  | CUnlock => Some (goto t (TClose CReturned) (set_mu false c))
  | CReturned => None
  end.

(** The statements of the worker that need no outside event: the
    cancellation check at the top of the loop and the two deferred calls.
    [Done] below zero panics. *)
Definition step_worker (t : tid) (w : worker) (c : client) : option client :=
  match w_pc w with
  | WCheck =>
      if w_ctxDone w then Some (goto t (TWorker (set_pc WCloseFrameCh w)) c)
      else Some (goto t (TWorker (set_pc WRead w)) c)
  | WCloseFrameCh =>
      Some (goto t (TWorker (set_pc WDone (close_frameCh w))) c)
  | WDone =>
      match activeBackgroundWorkers c with
      | 0 => Some (panic c)
      | S n =>
          Some (goto t (TWorker (set_pc WExited w))
                  (set_activeBackgroundWorkers n c))
      end
  | WRead | WSelect _ _ | WExited => None
  end.

(** [c.Read] returns [r] to the worker: on an error every handler of
    [errHandlers] is called with it, in order; then the worker is at the
    [select] with the pair. *)
Definition step_read (t : tid) (w : worker) (r : result image) (c : client)
    : option client :=
  match w_pc w with
  | WRead =>
      match r with
      | Ok frame => Some (goto t (TWorker (set_pc (WSelect frame None) w)) c)
      | Err err =>
          Some (goto t (TWorker
                  (set_pc (WSelect NilImage (Some err))
                     (handle ((λ h, (h, err)) <$> w_errHandlers w) w))) c)
      end
  | _ => None
  end.

(** The three cases of the worker's [select]. *)
Inductive select_case :=
| CaseCtxDone          (* <-streamCtx.Done() *)
| CaseHealthyClosed    (* <-healthyClientCh *)
| CaseSend.            (* frameCh <- pair *)

(** A case can be taken only when its communication can proceed: the
    context is cancelled, the captured signal is closed, or a consumer
    receives.  Among the ready cases Go picks any.  On the closed signal the
    worker closes the stream, which cancels [streamCtx]. *)
Definition step_select (t : tid) (w : worker) (k : select_case) (c : client)
    : option client :=
  match w_pc w with
  | WSelect frame err =>
      match k with
      | CaseCtxDone =>
          if w_ctxDone w
          then Some (goto t (TWorker (set_pc WCloseFrameCh w)) c)
          else None
      | CaseHealthyClosed =>
          if bool_decide (w_healthyClientCh w ∈ closed c)
          then Some (goto t (TWorker (set_pc WCloseFrameCh (cancel w))) c)
          else None
      | CaseSend =>
          Some (goto t (TWorker (set_pc WCheck (deliver (frame, err) w))) c)
      end
  | _ => None
  end.

(** What the scheduler and the environment can do. *)
Inductive action :=
| CallStream (errHandlers : list handler)  (* a goroutine calls Stream *)
| CallClose                                (* a goroutine calls Close *)
| Step (t : tid)                           (* goroutine t runs its next statement *)
| ReadReturns (t : tid) (r : result image) (* worker t's c.Read returns *)
| Select (t : tid) (k : select_case)       (* worker t's select takes case k *)
| CancelStream (t : tid).                  (* the consumer cancels worker t's streamCtx *)

(** [None]: the action cannot happen (the goroutine is blocked, finished or
    absent, or the process has panicked). *)
Definition step (a : action) (c : client) : option client :=
  if panicked c then None
  else
    match a with
    | CallStream hs => Some (set_threads (threads c ++ [TStream SLock hs]) c)
    | CallClose => Some (set_threads (threads c ++ [TClose CLock]) c)
    | Step t =>
        match threads c !! t with
        | Some (TStream pc hs) => step_Stream t pc hs c
        | Some (TClose pc) => step_Close t pc c
        | Some (TWorker w) => step_worker t w c
        | None => None
        end
    | ReadReturns t r =>
        match threads c !! t with
        | Some (TWorker w) => step_read t w r c
        | _ => None
        end
    | Select t k =>
        match threads c !! t with
        | Some (TWorker w) => step_select t w k c
        | _ => None
        end
    | CancelStream t =>
        match threads c !! t with
        | Some (TWorker w) => Some (goto t (TWorker (cancel w)) c)
        | _ => None
        end
    end.

(** A schedule, run from left to right. *)
Fixpoint run (sched : list action) (c : client) : option client :=
  match sched with
  | [] => Some c
  | a :: rest =>
      match step a c with
      | Some c' => run rest c'
      | None => None
      end
  end.

(** A worker publishes on a closed generation while the client already
    holds a different signal. *)
Definition publishes_across_generations (c : client) (a : action) : bool :=
  match a with
  | Select t CaseSend =>
      match threads c !! t, healthyClientCh c with
      | Some (TWorker w), Some ch =>
          bool_decide (w_healthyClientCh w ∈ closed c)
          && bool_decide (ch ≠ w_healthyClientCh w)
      | _, _ => false
      end
  | _ => false
  end.

(** ** The lifecycle invariant *)

(** Goroutines between [c.mu.Lock()] and [c.mu.Unlock()]. *)
Definition in_critical_section (th : thread) : nat :=
  match th with
  | TStream SEnsure _ | TStream (SUnlock _) _ => 1
  | TClose CCloseSignal | TClose CWait | TClose CClear | TClose CUnlock => 1
  | _ => 0
  end.

(** What the WaitGroup counts: a [Stream] call between [Add(1)] and the
    start of its goroutine, and every worker that has not run [Done]. *)
Definition attached (th : thread) : nat :=
  match th with
  | TStream (SGo _) _ => 1
  | TWorker w => match w_pc w with WExited => 0 | _ => 1 end
  | _ => 0
  end.

(** A [Close] call between closing the signal and clearing the field. *)
Definition draining (th : thread) : bool :=
  match th with
  | TClose CWait | TClose CClear => true
  | _ => false
  end.

Definition is_worker (th : thread) : bool :=
  match th with TWorker _ => true | _ => false end.

Definition is_handle (th : thread) : bool :=
  match th with TStream (SReturned _) _ => true | _ => false end.

(** Every stream handle returned by [Stream] names a worker goroutine. *)
Definition handles_ok (l : list thread) : Prop :=
  ∀ t w hs, l !! t = Some (TStream (SReturned w) hs) →
    ∃ wk, l !! w = Some (TWorker wk).

Definition some_draining (l : list thread) : Prop :=
  ∃ k th, l !! k = Some th ∧ draining th = true.

Record consistent (c : client) : Prop := {
  inv_running : panicked c = false;
  inv_mu :
    sum_list_with in_critical_section (threads c) = if mu c then 1 else 0;
  inv_wg :
    activeBackgroundWorkers c = sum_list_with attached (threads c);
  inv_signal :
    ∀ ch, healthyClientCh c = Some ch → ch ∈ closed c →
      some_draining (threads c);
  inv_alloc_closed : ∀ ch, ch ∈ closed c → ch < next_chan c;
  inv_alloc_signal : ∀ ch, healthyClientCh c = Some ch → ch < next_chan c;
  inv_handles : handles_ok (threads c) }.

(** Worker [w] has finished: its deferred calls have run. *)
Definition exited (c : client) (w : tid) : Prop :=
  ∃ wk, threads c !! w = Some (TWorker wk) ∧ w_pc wk = WExited.

(** What the consumer of worker [w]'s stream has received. *)
Definition delivered (c : client) (w : tid) : list (image * option string) :=
  match threads c !! w with
  | Some (TWorker wk) => w_delivered wk
  | _ => []
  end.

(** [Close] call [k] is past [Wait]. *)
Definition past_Wait (c : client) (k : tid) : Prop :=
  threads c !! k = Some (TClose CClear)
  ∨ threads c !! k = Some (TClose CUnlock)
  ∨ threads c !! k = Some (TClose CReturned).

(** The goroutine an action moves, if any. *)
Definition actor (a : action) : option tid :=
  match a with
  | CallStream _ | CallClose => None
  | Step t | ReadReturns t _ | Select t _ | CancelStream t => Some t
  end.

(** The barrier, as an invariant of the run once [Stream] call [t] has
    returned the handle of worker [w] and [Close] call [k] exists: when [k]
    is past [Wait], [w] has exited. *)
Definition barrier (t : tid) (hs : list handler) (w k : tid) (c : client)
    : Prop :=
  consistent c
  ∧ threads c !! t = Some (TStream (SReturned w) hs)
  ∧ (∃ pc, threads c !! k = Some (TClose pc))
  ∧ (past_Wait c k → exited c w).

(** A [Stream] call (goroutine 0) reads the signal and unlocks; a [Close]
    call (goroutine 1) then runs to completion, finding the counter at zero;
    only then does the [Stream] call reach [Add(1)] and start its worker
    (goroutine 3), bound to the signal that is now closed.  A second
    [Stream] call (goroutine 2) makes the next signal, and the worker reads
    a frame and stands at its [select]. *)
Definition racing_schedule : list action :=
  [ CallStream []; CallClose; CallStream [];
    Step 0; Step 0; Step 0;
    Step 1; Step 1; Step 1; Step 1; Step 1;
    Step 0; Step 0; Step 0;
    Step 2; Step 2; Step 2;
    Step 3; ReadReturns 3 (Ok (LazyEncodedImage [] MimeTypeJPEG)) ].

(** Two [Close] calls one after the other on a fresh client, then a
    [Stream] call up to its capture of the signal. *)
Definition close_twice_then_stream : list action :=
  [ CallClose; Step 0; Step 0; Step 0; Step 0; Step 0;
    CallClose; Step 1; Step 1; Step 1; Step 1; Step 1;
    CallStream []; Step 2; Step 2 ].

(** A [Stream] call runs to completion and its worker delivers a frame;
    then [Close] is called, the worker takes the closed-signal case and
    exits, and [Close] returns. *)
Definition stream_then_close : list action :=
  [ CallStream [];
    Step 0; Step 0; Step 0; Step 0; Step 0; Step 0;
    Step 1; ReadReturns 1 (Ok (LazyEncodedImage [] MimeTypeJPEG));
    Select 1 CaseSend; Step 1; ReadReturns 1 (Err "unavailable") ].

Definition close_after_stream : list action :=
  [ Step 2; Step 2;
    Select 1 CaseHealthyClosed; Step 1; Step 1;
    Step 2; Step 2; Step 2 ].

(** A [Stream] call with two error handlers has returned and its worker
    is about to call [Read]. *)
Definition stream_started : list action :=
  [ CallStream [5; 6];
    Step 0; Step 0; Step 0; Step 0; Step 0; Step 0;
    Step 1 ].

Definition reading_worker : worker :=
  {| w_pc := WRead; w_healthyClientCh := 0; w_errHandlers := [5; 6];
     w_ctxDone := false; w_frameChClosed := false; w_delivered := [];
     w_handled := [] |}.

Definition reading_client : client :=
  {| mu := false; healthyClientCh := Some 0; activeBackgroundWorkers := 1;
     closed := []; next_chan := 1;
     threads := [TStream (SReturned 1) [5; 6]; TWorker reading_worker];
     panicked := false |}.

(** ** NextPointCloud *)

(** Modelled from the spec: the mimetype constant of package [utils] for
    point clouds is not under src/. *)
Definition MimeTypePCD : string := "pointcloud/pcd".

Record GetPointCloudRequest := {
  pcreq_Name : string;
  pcreq_MimeType : string;
  pcreq_Extra : gmap string string }.

Record GetPointCloudResponse := {
  pc_MimeType : string;
  pc_PointCloud : bytes }.

Module PointCloud.
Section WithReader.
(** What [pointcloud.ReadPCD] produces is opaque to the client. *)
Context {cloud : Type}.
(** [pointcloud.ReadPCD], the external parser. *)
Variable ReadPCD : bytes → result cloud.
(** The remote end of [c.client.GetPointCloud]. *)
Variable GetPointCloud : GetPointCloudRequest → result GetPointCloudResponse.

(** [NextPointCloud]: the extra parameters come from
    [data.GetExtraFromContext] alone. *)
Definition NextPointCloud (name : string) (ctx : context) : result cloud :=
  match ctx_dataExtra ctx with
  | Err e => Err e
  | Ok ext =>
      match GetPointCloud {| pcreq_Name := name; pcreq_MimeType := MimeTypePCD;
                             pcreq_Extra := ext |} with
      | Err e => Err e
      | Ok resp =>
          if decide (pc_MimeType resp ≠ MimeTypePCD)
          then Err ("unknown pc mime type " +:+ pc_MimeType resp)
          else ReadPCD (pc_PointCloud resp)
      end
  end.
End WithReader.
End PointCloud.

(** The request [Read] sends for a context whose extras could be read. *)
Definition Read_request (name : string) (ctx : context)
    (ext : gmap string string) : GetImageRequest :=
  {| gireq_Name := name;
     gireq_MimeType := (CheckLazyMIMEType (MIMETypeHint ctx "")).1;
     gireq_Extra := ext |}.

(** A context with a mimetype hint and both kinds of extras, sharing the
    key "fromDM". *)
Definition sample_context : context :=
  {| ctx_mimeHint := Some "image/jpeg+lazy";
     ctx_extra := Some (Ok {[ "fromDM" := "no"; "exposure" := "auto" ]});
     ctx_dataExtra := Ok {[ "fromDM" := "yes" ]} |}.

(** A context whose extra parameters cannot be converted. *)
Definition broken_context : context :=
  {| ctx_mimeHint := None;
     ctx_extra := Some (Err "proto: invalid type");
     ctx_dataExtra := Ok ∅ |}.

Definition sample_images : GetImagesResponse :=
  {| resp_Images :=
       [ {| img_SourceName := "color"; img_Format := Format_FORMAT_JPEG;
            img_Image := [Byte.xff; Byte.xd8] |};
         {| img_SourceName := "depth"; img_Format := Format_FORMAT_RAW_DEPTH;
            img_Image := [Byte.x00] |};
         {| img_SourceName := "aux"; img_Format := Format_FORMAT_UNSPECIFIED;
            img_Image := [Byte.x89] |} ];
     resp_ResponseMetadata := {| CapturedAt := 42%Z |} |}.

(** A sniffing decoder that only knows the PNG magic byte. *)
Definition sample_Decode (b : bytes) : result pixels :=
  match b with
  | Byte.x89 :: _ => Ok {| px_format := "png"; px_data := b |}
  | _ => Err "image: unknown format"
  end.

Definition sample_properties : GetPropertiesResponse :=
  {| pr_SupportsPcd := true;
     pr_IntrinsicParameters :=
       Some {| WidthPx := 640%Z; HeightPx := 480%Z;
               FocalXPx := 1.5%float; FocalYPx := 1.5%float;
               CenterXPx := 320%float; CenterYPx := 240%float |};
     pr_DistortionParameters :=
       Some {| dp_Model := "brown_conrady";
               dp_Parameters := [0.5%float; 0.25%float] |};
     pr_MimeTypes := ["image/jpeg"; "image/png"] |}.

(** ** Further lifecycle invariants *)

(** What a worker keeps true of its own state: [frameCh] is open as long as
    the worker is in its loop and closed once the deferred [close] has run;
    the worker leaves the loop only with [streamCtx] cancelled; the pair it
    offers or has delivered never has both a frame and an error; and only
    handlers of [errHandlers] have been called. *)
Definition pair_ok (p : image * option string) : Prop :=
  match p.2 with Some _ => p.1 = NilImage | None => True end.

Definition worker_ok (w : worker) : Prop :=
  match w_pc w with
  | WCheck | WRead => w_frameChClosed w = false
  | WSelect frame err => w_frameChClosed w = false ∧ pair_ok (frame, err)
  | WCloseFrameCh => w_frameChClosed w = false ∧ w_ctxDone w = true
  | WDone | WExited => w_frameChClosed w = true ∧ w_ctxDone w = true
  end
  ∧ Forall pair_ok (w_delivered w)
  ∧ Forall (λ call, call.1 ∈ w_errHandlers w) (w_handled w).

Definition workers_ok (c : client) : Prop :=
  ∀ t w, threads c !! t = Some (TWorker w) → worker_ok w.

(** The generation signal a goroutine holds in a local variable. *)
Definition held_signal (th : thread) : option chan :=
  match th with
  | TStream (SUnlock hc) _ | TStream (SNewStream hc) _
  | TStream (SAdd hc) _ | TStream (SGo hc) _ => Some hc
  | TWorker w => Some (w_healthyClientCh w)
  | _ => None
  end.

(** Of the channels made so far, only the one stored in the client can be
    open; while a [Close] call is draining, that one is closed too; and
    every signal a goroutine holds has been made. *)
Record generations (c : client) : Prop := {
  gen_one_open :
    ∀ ch, ch < next_chan c → ch ∈ closed c ∨ healthyClientCh c = Some ch;
  gen_draining :
    some_draining (threads c) →
    ∀ ch, healthyClientCh c = Some ch → ch ∈ closed c;
  gen_held :
    ∀ t th hc, threads c !! t = Some th → held_signal th = Some hc →
      hc < next_chan c }.

(** A client that has not panicked, by its fields. *)
Definition running (m : bool) (h : option chan) (n : nat) (cl : list chan)
    (nx : chan) (ths : list thread) : client :=
  {| mu := m; healthyClientCh := h; activeBackgroundWorkers := n;
     closed := cl; next_chan := nx; threads := ths; panicked := false |}.

(** After [stream_then_close], the consumer receives the failed pair and
    cancels the stream, and the worker sees the cancellation and exits. *)
Definition stream_cancelled : list action :=
  stream_then_close
  ++ [Select 1 CaseSend; CancelStream 1; Step 1; Step 1; Step 1].

Definition cancelled_client : client :=
  running false (Some 0) 0 [] 1
    [ TStream (SReturned 1) [];
      TWorker {| w_pc := WExited; w_healthyClientCh := 0; w_errHandlers := [];
                 w_ctxDone := true; w_frameChClosed := true;
                 w_delivered := [(LazyEncodedImage [] MimeTypeJPEG, None);
                                 (NilImage, Some "unavailable")];
                 w_handled := [] |} ].

(** ** Further notions used in the statements *)

(** The entry [Images] builds for an image whose tag is recognized. *)
Definition lazy_entry (img : pbImage) : NamedImage :=
  {| ni_Image := LazyEncodedImage (img_Image img)
                   (corresponding_mimetype (img_Format img));
     ni_SourceName := img_SourceName img |}.








(** The pair the worker offers to [frameCh] after [c.Read] has returned
    [r]: the frame with a nil error, or the nil frame with the error. *)
Definition read_pair (r : result image) : image * option string :=
  match r with
  | Ok frame => (frame, None)
  | Err err => (NilImage, Some err)
  end.

(** The results [c.Read] returns to worker [t] along a schedule, in the
    order of the calls, as the pairs the worker makes of them. *)
Definition Read_result (t : tid) (a : action)
    : list (image * option string) :=
  match a with
  | ReadReturns t' r => if decide (t' = t) then [read_pair r] else []
  | _ => []
  end.

Fixpoint reads_of (t : tid) (sched : list action)
    : list (image * option string) :=
  match sched with
  | [] => []
  | a :: rest => Read_result t a ++ reads_of t rest
  end.

(** How the results [reads] that [c.Read] has returned to a goroutine so
    far stand to what has been delivered on its stream: all of them have
    been delivered, in order, except the last one while the worker offers
    it at its [select], or when the worker has left the loop there. *)
Definition in_Read_order (reads : list (image * option string))
    (th : option thread) : Prop :=
  match th with
  | Some (TWorker w) =>
      match w_pc w with
      | WCheck | WRead => reads = w_delivered w
      | WSelect frame err => reads = w_delivered w ++ [(frame, err)]
      | WCloseFrameCh | WDone | WExited =>
          reads = w_delivered w ∨ ∃ p, reads = w_delivered w ++ [p]
      end
  | _ => reads = []
  end.

(** * Properties of the decode pipeline *)

Section ImagesFacts.
Variable image_Decode : bytes → result pixels.

Abbreviation dispatch := (Images.dispatch image_Decode).
Abbreviation loop := (Images.loop image_Decode).
Abbreviation converts := (Images.converts image_Decode).

Lemma loop_Ok todo : ∀ images out,
  loop todo images = Ok out ↔
  ∃ new, out = images ++ new ∧ Forall2 converts todo new.
Proof.
  induction todo as [|img rest IH]; intros images out; simpl.
  - split.
    + intros [= <-]. exists []. by rewrite app_nil_r.
    + intros (new & -> & Hnew). apply Forall2_nil_inv_l in Hnew as ->.
      by rewrite app_nil_r.
  - destruct (dispatch img) as [rdkImage|e] eqn:Hd.
    + rewrite IH. split.
      * intros (new & -> & Hnew).
        exists ({| ni_Image := rdkImage; ni_SourceName := img_SourceName img |} :: new).
        split; [by rewrite <- app_assoc|].
        constructor; [by split|done].
      * intros (new & -> & Hnew).
        apply Forall2_cons_inv_l in Hnew as (ni & new' & [Hi Hs] & Hrest & ->).
        exists new'. split; [|done].
        rewrite <- app_assoc. simpl. do 2 f_equal.
        destruct ni as [i s]; simpl in *. congruence.
    + split; [done|].
      intros (new & _ & Hnew).
      apply Forall2_cons_inv_l in Hnew as (ni & new' & [Hi Hs] & _).
      congruence.
Qed.

Lemma loop_Err todo : ∀ images e,
  loop todo images = Err e →
  ∃ img, img ∈ todo ∧ dispatch img = Err e.
Proof.
  induction todo as [|img rest IH]; intros images e; simpl; [done|].
  destruct (dispatch img) as [rdkImage|e'] eqn:Hd.
  - intros (img' & Hin & He)%IH. exists img'. split; [by right|done].
  - intros [= ->]. exists img. split; [by left|done].
Qed.

Lemma loop_total_Err todo : ∀ images img e,
  img ∈ todo → dispatch img = Err e →
  is_err (loop todo images) = true.
Proof.
  induction todo as [|i rest IH]; intros images img e Hin Hd; simpl.
  - by apply elem_of_nil in Hin.
  - destruct (dispatch i) as [rdkImage|e'] eqn:Hi; [|done].
    apply elem_of_cons in Hin as [->|Hin]; [congruence|].
    by eapply IH.
Qed.

Lemma dispatch_Err img e :
  dispatch img = Err e →
  img_Format img = Format_FORMAT_UNSPECIFIED ∧ image_Decode (img_Image img) = Err e.
Proof.
  unfold Images.dispatch. repeat case_decide; try done.
  destruct (image_Decode _); [done|]. by intros [= ->].
Qed.

Lemma dispatch_recognized (any_decoder : bytes → result pixels) img :
  recognized (img_Format img) = true →
  Images.dispatch any_decoder img
  = Ok (LazyEncodedImage (img_Image img) (corresponding_mimetype (img_Format img))).
Proof.
  unfold recognized. intros Hr%bool_decide_eq_true.
  rewrite !elem_of_cons in Hr.
  unfold Images.dispatch, corresponding_mimetype.
  destruct Hr as [Hf|[Hf|[Hf|[Hf|Hf]]]];
    [rewrite Hf; reflexivity .. | by apply elem_of_nil in Hf].
Qed.

Lemma dispatch_unspecified img :
  img_Format img = Format_FORMAT_UNSPECIFIED →
  dispatch img
  = match image_Decode (img_Image img) with
    | Ok p => Ok (DecodedImage p)
    | Err e => Err e
    end.
Proof. unfold Images.dispatch. intros ->. done. Qed.

Lemma dispatch_outside img :
  in_enumeration (img_Format img) = false → dispatch img = Ok NilImage.
Proof.
  unfold in_enumeration. intros Hr%bool_decide_eq_false.
  rewrite !elem_of_cons in Hr.
  unfold Images.dispatch.
  repeat (case_decide; [exfalso; apply Hr; tauto|]). done.
Qed.

Lemma Images_Ok_lookup resp out md i img :
  Images.Images image_Decode (Ok resp) = Ok (out, md) →
  resp_Images resp !! i = Some img →
  ∃ ni, out !! i = Some ni ∧ converts img ni.
Proof.
  unfold Images.Images.
  destruct (loop (resp_Images resp) []) as [images|e] eqn:Hl; [|done].
  intros [= <- <-] Hi.
  apply loop_Ok in Hl as (new & -> & Hnew). simpl.
  destruct (Forall2_lookup_l _ _ _ _ _ Hnew Hi) as (ni & Hni & Hc).
  by exists ni.
Qed.

(** C4 (amended): after a successful [GetImages] call, [Images] fails
    exactly when some image carries the unspecified tag and the generic
    decoder rejects its bytes.  The dispatch has no default branch: a tag
    outside the enumeration is never an error. *)
Theorem Images_fails_exactly_on_failed_sniff resp :
  (is_err (Images.Images image_Decode (Ok resp)) = true ↔
     ∃ img e, img ∈ resp_Images resp
              ∧ img_Format img = Format_FORMAT_UNSPECIFIED
              ∧ image_Decode (img_Image img) = Err e) ∧
  (∀ img, in_enumeration (img_Format img) = false →
     is_err (dispatch img) = false).
Proof.
  split.
  - unfold Images.Images. split.
    + destruct (loop (resp_Images resp) []) as [images|e] eqn:Hl; [done|].
      intros _. apply loop_Err in Hl as (img & Hin & Hd).
      apply dispatch_Err in Hd as [Hf Hdec]. by exists img, e.
    + intros (img & e & Hin & Hf & Hdec).
      assert (is_err (loop (resp_Images resp) []) = true) as He.
      { eapply loop_total_Err; [done|].
        by rewrite dispatch_unspecified, Hdec. }
      by destruct (loop _ _).
  - intros img Hout. by rewrite dispatch_outside.
Qed.
End ImagesFacts.

(** C4, as stated, fails: a response whose only image carries tag 7, outside
    the enumeration, is accepted, and a nil image is returned for it. *)
Lemma Images_accepts_tag_outside_enumeration :
  let resp := {| resp_Images := [ {| img_SourceName := "color";
                                     img_Format := 7%Z;
                                     img_Image := [] |} ];
                 resp_ResponseMetadata := {| CapturedAt := 0%Z |} |} in
  in_enumeration 7%Z = false ∧
  Images.Images (λ _, Err "image: unknown format") (Ok resp)
  = Ok ([ {| ni_Image := NilImage; ni_SourceName := "color" |} ],
        {| CapturedAt := 0%Z |}).
Proof. split; reflexivity. Qed.

Lemma Images_fails_exactly_on_failed_sniff_witness :
  is_err (Images.Images (λ _, Err "image: unknown format")
            (Ok {| resp_Images := [ {| img_SourceName := "depth";
                                       img_Format := Format_FORMAT_UNSPECIFIED;
                                       img_Image := [] |} ];
                   resp_ResponseMetadata := {| CapturedAt := 0%Z |} |})) = true.
Proof.
  apply (Images_fails_exactly_on_failed_sniff (λ _, Err "image: unknown format")).
  eexists _, _. split; [apply list_elem_of_here|]. split; reflexivity.
Defined.

Lemma loop_sniffable (image_Decode : bytes → result pixels) todo : ∀ images,
  (∀ img, img ∈ todo → img_Format img = Format_FORMAT_UNSPECIFIED →
     is_err (image_Decode (img_Image img)) = false) →
  ∃ new, Images.loop image_Decode todo images = Ok (images ++ new)
         ∧ Forall2 (Images.converts image_Decode) todo new.
Proof.
  induction todo as [|img rest IH]; intros images Hs; simpl.
  - exists []. by rewrite app_nil_r.
  - destruct (Images.dispatch image_Decode img) as [rdkImage|e] eqn:Hd.
    + destruct (IH (images ++ [{| ni_Image := rdkImage;
                                  ni_SourceName := img_SourceName img |}]))
        as (new & -> & Hnew).
      { intros img' Hin. apply Hs. by right. }
      eexists (_ :: new). split; [by rewrite <- app_assoc|].
      constructor; [by split|done].
    + apply dispatch_Err in Hd as [Hf Hdec].
      specialize (Hs img ltac:(left) Hf). by rewrite Hdec in Hs.
Qed.

Lemma loop_same_sniffs (dec1 dec2 : bytes → result pixels) todo : ∀ images,
  (∀ img, img ∈ todo → img_Format img = Format_FORMAT_UNSPECIFIED →
     dec1 (img_Image img) = dec2 (img_Image img)) →
  Images.loop dec1 todo images = Images.loop dec2 todo images.
Proof.
  induction todo as [|img rest IH]; intros images Hs; simpl; [done|].
  assert (Images.dispatch dec1 img = Images.dispatch dec2 img) as ->.
  { unfold Images.dispatch. repeat case_decide; try done.
    by rewrite (Hs img) by (done || left). }
  destruct (Images.dispatch dec2 img); [|done].
  apply IH. intros img' Hin. apply Hs. by right.
Qed.

Lemma loop_recognized (any_decoder : bytes → result pixels) todo : ∀ images,
  (∀ img, img ∈ todo → recognized (img_Format img) = true) →
  Images.loop any_decoder todo images = Ok (images ++ (lazy_entry <$> todo)).
Proof.
  induction todo as [|img rest IH]; intros images Hr; simpl.
  - by rewrite app_nil_r.
  - rewrite dispatch_recognized by (apply Hr; left).
    rewrite IH by (intros img' Hin; apply Hr; by right).
    by rewrite <- app_assoc.
Qed.

(** C7: [Images] wraps every image whose tag is recognized, bytes
    untouched, in a lazily-decodable image tagged with the corresponding
    mimetype, and gives the bytes of an image with the unspecified tag to
    the generic decoder at once.  So: a response with recognized tags only
    is converted whatever the decoder, which is never consulted; when the
    decoder determines the format of every image with the unspecified tag,
    [Images] succeeds, and entry [i] is the lazy image for a recognized
    tag and the decoded image for the unspecified tag; when the decoder
    cannot determine the format of one of them, [Images] returns an error;
    and the decoder is consulted on nothing but the bytes of the images
    with the unspecified tag. *)
Theorem Images_lazy_when_recognized_sniffed_when_unspecified
    (image_Decode : bytes → result pixels) resp :
  ((∀ img, img ∈ resp_Images resp → recognized (img_Format img) = true) →
   ∀ any_decoder,
     Images.Images any_decoder (Ok resp)
     = Ok (lazy_entry <$> resp_Images resp, resp_ResponseMetadata resp))
  ∧ ((∀ img, img ∈ resp_Images resp →
        img_Format img = Format_FORMAT_UNSPECIFIED →
        is_err (image_Decode (img_Image img)) = false) →
     ∃ out,
       Images.Images image_Decode (Ok resp)
       = Ok (out, resp_ResponseMetadata resp)
       ∧ length out = length (resp_Images resp)
       ∧ ∀ i img, resp_Images resp !! i = Some img →
           (recognized (img_Format img) = true →
              out !! i = Some (lazy_entry img))
           ∧ (img_Format img = Format_FORMAT_UNSPECIFIED →
              ∃ p, image_Decode (img_Image img) = Ok p
                   ∧ out !! i = Some {| ni_Image := DecodedImage p;
                                        ni_SourceName := img_SourceName img |}))
  ∧ (∀ img e, img ∈ resp_Images resp →
       img_Format img = Format_FORMAT_UNSPECIFIED →
       image_Decode (img_Image img) = Err e →
       is_err (Images.Images image_Decode (Ok resp)) = true)
  ∧ (∀ other_decoder,
       (∀ img, img ∈ resp_Images resp →
          img_Format img = Format_FORMAT_UNSPECIFIED →
          other_decoder (img_Image img) = image_Decode (img_Image img)) →
       Images.Images other_decoder (Ok resp)
       = Images.Images image_Decode (Ok resp)).
Proof.
  split_and!.
  - intros Hr dec. unfold Images.Images.
    by rewrite loop_recognized.
  - intros Hs. unfold Images.Images.
    destruct (loop_sniffable image_Decode (resp_Images resp) [] Hs)
      as (out & -> & Hout).
    exists out. split; [done|]. split; [symmetry; by eapply Forall2_length|].
    intros i img Hi.
    destruct (Forall2_lookup_l _ _ _ _ _ Hout Hi) as ([im src] & Hni & Hd & Hn).
    simpl in *. subst src. split.
    + intros Hr. rewrite (dispatch_recognized image_Decode) in Hd by done.
      by simplify_eq.
    + intros Hf. rewrite dispatch_unspecified in Hd by done.
      destruct (image_Decode (img_Image img)) as [p|e]; [|done].
      exists p. by simplify_eq.
  - intros img e Hin Hf Hdec. unfold Images.Images.
    assert (is_err (Images.loop image_Decode (resp_Images resp) []) = true)
      as He.
    { eapply loop_total_Err; [done|]. by rewrite dispatch_unspecified, Hdec. }
    by destruct (Images.loop _ _ _).
  - intros dec Hs. unfold Images.Images.
    by rewrite (loop_same_sniffs dec image_Decode).
Qed.

Lemma Images_lazy_when_recognized_sniffed_when_unspecified_witness :
  (∃ out,
     Images.Images sample_Decode (Ok sample_images)
     = Ok (out, {| CapturedAt := 42%Z |})
     ∧ out !! 0%nat
       = Some {| ni_Image := LazyEncodedImage [Byte.xff; Byte.xd8] "image/jpeg";
                 ni_SourceName := "color" |}
     ∧ out !! 2%nat
       = Some {| ni_Image := DecodedImage {| px_format := "png";
                                             px_data := [Byte.x89] |};
                 ni_SourceName := "aux" |})
  ∧ is_err (Images.Images (λ _, Err "image: unknown format")
              (Ok sample_images)) = true.
Proof.
  split.
  - destruct (proj1 (proj2 (Images_lazy_when_recognized_sniffed_when_unspecified
                              sample_Decode sample_images)))
      as (out & HI & _ & Hent).
    { intros img Hin Hf. unfold sample_images in Hin. simpl in Hin.
      repeat (apply elem_of_cons in Hin as [->|Hin]); try done.
      by apply elem_of_nil in Hin. }
    exists out. split; [exact HI|]. split.
    + exact (proj1 (Hent 0%nat
                      {| img_SourceName := "color";
                         img_Format := Format_FORMAT_JPEG;
                         img_Image := [Byte.xff; Byte.xd8] |} eq_refl) eq_refl).
    + destruct (proj2 (Hent 2%nat
                         {| img_SourceName := "aux";
                            img_Format := Format_FORMAT_UNSPECIFIED;
                            img_Image := [Byte.x89] |} eq_refl) eq_refl)
        as (p & Hp & Ho).
      simpl in Hp. injection Hp as <-. exact Ho.
  - refine (proj1 (proj2 (proj2
              (Images_lazy_when_recognized_sniffed_when_unspecified
                 (λ _, Err "image: unknown format") sample_images)))
              {| img_SourceName := "aux";
                 img_Format := Format_FORMAT_UNSPECIFIED;
                 img_Image := [Byte.x89] |}
              "image: unknown format" _ eq_refl eq_refl).
    unfold sample_images. simpl. do 2 right. left.
Defined.

(** * Properties of the mimetype negotiation in [Read] *)

Lemma eqb_length_ne (s1 s2 : string) :
  String.length s1 ≠ String.length s2 → String.eqb s1 s2 = false.
Proof.
  intros Hlen. apply String.eqb_neq. intros ->. by apply Hlen.
Qed.

Lemma length_append (s1 s2 : string) :
  String.length (s1 +:+ s2) = String.length s1 + String.length s2.
Proof. induction s1 as [|c s1 IH]; simpl; [done|]. by rewrite IH. Qed.

Lemma trim_suffix_app (suffix base : string) :
  trim_suffix suffix (base +:+ suffix) = Some base.
Proof.
  induction base as [|c base IH]; simpl.
  - destruct suffix; simpl; [done|].
    by rewrite Ascii.eqb_refl, String.eqb_refl.
  - rewrite IH. simpl.
    assert (String.eqb (String c (base +:+ suffix)) suffix = false) as Hne.
    { apply eqb_length_ne. simpl. rewrite length_append. lia. }
    simpl in Hne. by rewrite Hne.
Qed.

Lemma CheckLazy_WithLazy (mimeType : string) :
  CheckLazyMIMEType (WithLazyMIMEType mimeType) = (mimeType, true).
Proof.
  unfold CheckLazyMIMEType, WithLazyMIMEType.
  by rewrite trim_suffix_app.
Qed.

Section ReadFacts.
Variable decode_as : string → bytes → result pixels.
Variable GetImage : GetImageRequest → result GetImageResponse.

Lemma DecodeImage_WithLazy imgBytes mimeType :
  Read.DecodeImage decode_as imgBytes (WithLazyMIMEType mimeType)
  = Ok (LazyEncodedImage imgBytes mimeType).
Proof. unfold Read.DecodeImage. by rewrite CheckLazy_WithLazy. Qed.

(** C5 (amended): when the server's mimetype differs from the requested
    one, the mismatch is logged and not turned into an error, and [Read]
    succeeds with a lazily encoded image tagged with the server's
    mimetype: the lazy qualifier is attached whatever the caller asked
    for. *)
Theorem Read_mismatch_logged_image_always_lazy name ctx ext resp :
  let mimeType := MIMETypeHint ctx "" in
  let expectedType := (CheckLazyMIMEType mimeType).1 in
  getExtra ctx = Ok ext →
  GetImage {| gireq_Name := name; gireq_MimeType := expectedType;
              gireq_Extra := ext |} = Ok resp →
  gi_MimeType resp ≠ expectedType →
  Read.Read decode_as GetImage name ctx
  = (Ok (LazyEncodedImage (gi_Image resp) (gi_MimeType resp)),
     [ {| dbg_msg := "got different MIME type than what was asked for";
          dbg_sent := expectedType;
          dbg_received := gi_MimeType resp |} ]).
Proof.
  intros mimeType expectedType Hext Hrpc Hne.
  unfold Read.Read. fold mimeType. fold expectedType.
  rewrite Hext, Hrpc. unfold Read.negotiate.
  rewrite decide_True by done.
  by rewrite DecodeImage_WithLazy.
Qed.
End ReadFacts.

(** C5, as stated, fails: the caller asks for eager "image/jpeg", the server
    answers "image/png", and the image returned is lazily encoded. *)
Lemma Read_eager_request_gets_lazy_image :
  let ctx := {| ctx_mimeHint := Some "image/jpeg"; ctx_extra := None;
                ctx_dataExtra := Ok ∅ |} in
  let server := λ _ : GetImageRequest,
    Ok {| gi_MimeType := "image/png"; gi_Image := [Byte.x89; Byte.x50] |} in
  (CheckLazyMIMEType "image/jpeg").2 = false ∧
  ∃ img, (Read.Read (λ _ _, Err "no codec") server "cam" ctx).1 = Ok img
         ∧ image_is_lazy img = true.
Proof.
  split; [reflexivity|].
  exists (LazyEncodedImage [Byte.x89; Byte.x50] "image/png").
  split; reflexivity.
Qed.

Lemma Read_mismatch_logged_image_always_lazy_witness :
  let ctx := {| ctx_mimeHint := Some "image/jpeg+lazy"; ctx_extra := None;
                ctx_dataExtra := Ok ∅ |} in
  let server := λ _ : GetImageRequest,
    Ok {| gi_MimeType := "image/png"; gi_Image := [Byte.x89; Byte.x50] |} in
  Read.Read (λ _ _, Err "no codec") server "cam" ctx
  = (Ok (LazyEncodedImage [Byte.x89; Byte.x50] "image/png"),
     [ {| dbg_msg := "got different MIME type than what was asked for";
          dbg_sent := "image/jpeg"; dbg_received := "image/png" |} ]).
Proof.
  intros ctx server.
  apply (Read_mismatch_logged_image_always_lazy (λ _ _, Err "no codec") server
           "cam" ctx (proto_Merge ∅ ∅)
           {| gi_MimeType := "image/png"; gi_Image := [Byte.x89; Byte.x50] |}).
  - reflexivity.
  - reflexivity.
  - vm_compute. discriminate.
Defined.

(** * Properties of the properties resolver *)

Section ResolverFacts.
Variable registry : gmap string (list float → result Distorter).
Variable CheckValid : option PinholeCameraIntrinsics → option string.

Abbreviation NewDistorter := (Resolver.NewDistorter registry).
Abbreviation Properties_pair := (Resolver.Properties_pair registry).
Abbreviation Projector := (Resolver.Projector registry CheckValid).

(** What [Properties] has mapped from the response before it looks at the
    distortion descriptor. *)
Lemma Properties_pair_no_model resp :
  (pr_DistortionParameters resp = None
   ∨ ∃ dp, pr_DistortionParameters resp = Some dp ∧ dp_Model dp = "") →
  Properties_pair (Ok resp)
  = ({| SupportsPCD := pr_SupportsPcd resp;
        IntrinsicParams :=
          Resolver.intrinsics_of_proto <$> pr_IntrinsicParameters resp;
        DistortionParams := None;
        MimeTypes := pr_MimeTypes resp |}, None).
Proof.
  unfold Resolver.Properties_pair.
  intros [->|(dp & -> & ->)]; simpl;
    by destruct (pr_IntrinsicParameters resp).
Qed.

Lemma Properties_pair_model resp dp :
  pr_DistortionParameters resp = Some dp → dp_Model dp ≠ "" →
  Properties_pair (Ok resp)
  = match NewDistorter (dp_Model dp) (dp_Parameters dp) with
    | Err e => (zero_Properties, Some e)
    | Ok distorter =>
        ({| SupportsPCD := pr_SupportsPcd resp;
            IntrinsicParams :=
              Resolver.intrinsics_of_proto <$> pr_IntrinsicParameters resp;
            DistortionParams := Some distorter;
            MimeTypes := pr_MimeTypes resp |}, None)
    end.
Proof.
  unfold Resolver.Properties_pair. intros -> Hm.
  rewrite decide_False by done.
  destruct (NewDistorter _ _); [|done].
  by destruct (pr_IntrinsicParameters resp).
Qed.

(** C8: an absent descriptor or an empty model name gives a successful
    result without distortion; a non-empty name is looked up in the
    registry and its constructor applied to the parameter list, and
    [Properties] fails exactly when the name is unknown or the constructor
    rejects the parameters, otherwise it carries the constructed
    instance. *)
Theorem Properties_resolves_distortion resp :
  ((pr_DistortionParameters resp = None
    ∨ ∃ dp, pr_DistortionParameters resp = Some dp ∧ dp_Model dp = "") →
     ∃ props, Properties_pair (Ok resp) = (props, None)
              ∧ DistortionParams props = None) ∧
  (∀ dp, pr_DistortionParameters resp = Some dp → dp_Model dp ≠ "" →
     ((Properties_pair (Ok resp)).2 ≠ None ↔
        registry !! dp_Model dp = None
        ∨ ∃ construct e, registry !! dp_Model dp = Some construct
                         ∧ construct (dp_Parameters dp) = Err e) ∧
     (∀ construct distorter,
        registry !! dp_Model dp = Some construct →
        construct (dp_Parameters dp) = Ok distorter →
        ∃ props, Properties_pair (Ok resp) = (props, None)
                 ∧ DistortionParams props = Some distorter)).
Proof.
  split.
  - intros H. rewrite Properties_pair_no_model by done. by eexists.
  - intros dp Hdp Hm. rewrite (Properties_pair_model _ _ Hdp Hm).
    unfold Resolver.NewDistorter. split.
    + destruct (registry !! dp_Model dp) as [construct|] eqn:Hreg; simpl.
      * destruct (construct (dp_Parameters dp)) as [d|e] eqn:Hc; simpl.
        -- split; [done|]. intros [?|(c' & e & ? & ?)]; congruence.
        -- split; [|done]. intros _. right. by exists construct, e.
      * split; [by left|done].
    + intros construct d -> ->. by eexists.
Qed.

(** C9: what [Properties] returns as its error does not depend on the
    intrinsics in the response, present or not, and the intrinsics are
    passed on unchecked; [Projector] is where [CheckValid] runs, and when
    it objects [Projector] returns that error and no projector. *)
Theorem intrinsics_checked_only_by_Projector resp :
  (∀ intrinsics,
     (Properties_pair
        (Ok {| pr_SupportsPcd := pr_SupportsPcd resp;
               pr_IntrinsicParameters := intrinsics;
               pr_DistortionParameters := pr_DistortionParameters resp;
               pr_MimeTypes := pr_MimeTypes resp |})).2
     = (Properties_pair (Ok resp)).2) ∧
  (∀ props, Properties_pair (Ok resp) = (props, None) →
     IntrinsicParams props
     = Resolver.intrinsics_of_proto <$> pr_IntrinsicParameters resp
     ∧ Projector (Ok resp)
       = match CheckValid (IntrinsicParams props) with
         | Some err => (None, Some err)
         | None => (Some (IntrinsicParams props), None)
         end).
Proof.
  split.
  - intros intrinsics. unfold Resolver.Properties_pair; simpl.
    destruct (pr_DistortionParameters resp) as [dp|];
      [|by destruct intrinsics, (pr_IntrinsicParameters resp)].
    case_decide; [by destruct intrinsics, (pr_IntrinsicParameters resp)|].
    destruct (NewDistorter _ _);
      by destruct intrinsics, (pr_IntrinsicParameters resp).
  - intros props Hp. split.
    + revert Hp. unfold Resolver.Properties_pair.
      destruct (pr_DistortionParameters resp) as [dp|];
        [|intros [= <-]; by destruct (pr_IntrinsicParameters resp)].
      case_decide;
        [intros [= <-]; by destruct (pr_IntrinsicParameters resp)|].
      destruct (NewDistorter _ _); [|done].
      intros [= <-]; by destruct (pr_IntrinsicParameters resp).
    + unfold Resolver.Projector. by rewrite Hp.
Qed.

(** C10: whenever [Properties] returns a non-nil error, from the transport
    or from the distortion resolution that runs after the other fields
    were mapped, the value it returns is the zero [Properties]. *)
Theorem Properties_error_returns_zero rpc props err :
  Properties_pair rpc = (props, Some err) → props = zero_Properties.
Proof.
  unfold Resolver.Properties_pair.
  destruct rpc as [resp|e]; [|by intros [= <- _]].
  destruct (pr_DistortionParameters resp) as [dp|]; [|done].
  case_decide; [done|].
  destruct (NewDistorter _ _); [done|]. by intros [= <- _].
Qed.
End ResolverFacts.

Lemma Properties_resolves_distortion_witness :
  let dp := {| dp_Model := "fisheye"; dp_Parameters := [] |} in
  let resp := {| pr_SupportsPcd := true; pr_IntrinsicParameters := None;
                 pr_DistortionParameters := Some dp;
                 pr_MimeTypes := ["image/jpeg"] |} in
  (Resolver.Properties_pair sample_registry (Ok resp)).2 ≠ None.
Proof.
  intros dp resp.
  refine (proj2 (proj1 (proj2 (Properties_resolves_distortion sample_registry resp)
                          dp eq_refl _)) _).
  - discriminate.
  - left. reflexivity.
Defined.

Lemma intrinsics_checked_only_by_Projector_witness :
  let resp := {| pr_SupportsPcd := false; pr_IntrinsicParameters := None;
                 pr_DistortionParameters := None; pr_MimeTypes := [] |} in
  Resolver.Projector sample_registry sample_CheckValid (Ok resp)
  = (None, Some "pointer to intrinsic parameters is nil").
Proof.
  intros resp.
  refine (proj2 (proj2 (intrinsics_checked_only_by_Projector sample_registry
                          sample_CheckValid resp) zero_Properties _)).
  reflexivity.
Defined.

Lemma Properties_error_returns_zero_witness :
  let resp :=
    {| pr_SupportsPcd := true;
       pr_IntrinsicParameters :=
         Some {| WidthPx := 640%Z; HeightPx := 480%Z;
                 FocalXPx := 1.5%float; FocalYPx := 1.5%float;
                 CenterXPx := 320%float; CenterYPx := 240%float |};
       pr_DistortionParameters :=
         Some {| dp_Model := "fisheye"; dp_Parameters := [] |};
       pr_MimeTypes := ["image/jpeg"] |} in
  (Resolver.Properties_pair sample_registry (Ok resp)).2 ≠ None
  ∧ (Resolver.Properties_pair sample_registry (Ok resp)).1 = zero_Properties.
Proof.
  intros resp. split; [discriminate|].
  apply (Properties_error_returns_zero sample_registry (Ok resp) _
           "do not know how to parse distortion model fisheye").
  reflexivity.
Defined.

(** * Properties of the stream lifecycle *)

Open Scope nat_scope.

Section Counting.
Context {A : Type} (f : A → nat).

Lemma sum_list_with_insert (l : list A) i x y :
  l !! i = Some x →
  sum_list_with f (<[i:=y]> l) + f x = sum_list_with f l + f y.
Proof.
  revert i. induction l as [|a l IH]; intros [|i] Hi; simplify_eq/=.
  - lia.
  - specialize (IH _ Hi). lia.
Qed.

Lemma sum_list_with_lookup (l : list A) i x :
  l !! i = Some x → f x ≤ sum_list_with f l.
Proof.
  intros Hi. apply sum_list_with_in. by eapply list_elem_of_lookup_2.
Qed.

Lemma sum_list_with_lookup2 (l : list A) i j x y :
  i ≠ j → l !! i = Some x → l !! j = Some y →
  f x + f y ≤ sum_list_with f l.
Proof.
  revert i j. induction l as [|a l IH]; intros [|i] [|j] Hne Hi Hj;
    simplify_eq/=.
  - pose proof (sum_list_with_lookup _ _ _ Hj). lia.
  - pose proof (sum_list_with_lookup _ _ _ Hi). lia.
  - assert (i ≠ j) as Hne' by congruence.
    specialize (IH _ _ Hne' Hi Hj). lia.
Qed.
End Counting.

Lemma some_draining_insert l t old new :
  l !! t = Some old →
  (draining old = true → draining new = true) →
  some_draining l → some_draining (<[t:=new]> l).
Proof.
  intros Ht Hd (k & th & Hk & Hth).
  destruct (decide (t = k)) as [->|Hne].
  - exists k, new. split.
    + apply list_lookup_insert_eq. by eapply lookup_lt_Some.
    + apply Hd. congruence.
  - exists k, th. by rewrite list_lookup_insert_ne.
Qed.

Lemma some_draining_here l t old new :
  l !! t = Some old → draining new = true → some_draining (<[t:=new]> l).
Proof.
  intros Ht Hd. exists t, new. split; [|done].
  apply list_lookup_insert_eq. by eapply lookup_lt_Some.
Qed.

Lemma some_draining_app l k : some_draining l → some_draining (l ++ k).
Proof.
  intros (i & th & Hi & Hth). exists i, th. split; [|done].
  by apply lookup_app_l_Some.
Qed.

Lemma handles_ok_insert l t old new :
  l !! t = Some old →
  (is_worker old = true → is_worker new = true) →
  is_handle new = false ∨ new = old →
  handles_ok l → handles_ok (<[t:=new]> l).
Proof.
  intros Ht Hw Hh Hl t' w hs Ht'.
  assert (t < length l) as Hlt by (by eapply lookup_lt_Some).
  assert (l !! t' = Some (TStream (SReturned w) hs)) as Hold.
  { destruct (decide (t = t')) as [->|Hne].
    - rewrite list_lookup_insert_eq in Ht' by done. simplify_eq.
      destruct Hh as [Hh| ->]; [done|done].
    - by rewrite list_lookup_insert_ne in Ht'. }
  destruct (Hl _ _ _ Hold) as (wk & Hwk).
  destruct (decide (t = w)) as [->|Hne].
  - rewrite list_lookup_insert_eq by done.
    assert (Some old = Some (TWorker wk)) as [= ->] by (rewrite <- Ht; exact Hwk).
    specialize (Hw eq_refl). destruct new; try done. by eexists.
  - rewrite list_lookup_insert_ne by done. by eexists.
Qed.

Lemma handles_ok_app l th :
  is_handle th = false → handles_ok l → handles_ok (l ++ [th]).
Proof.
  intros Hth Hl t w hs Ht.
  apply lookup_app_Some in Ht as [Ht|[_ Ht]].
  - destruct (Hl _ _ _ Ht) as (wk & Hwk). exists wk.
    by apply lookup_app_l_Some.
  - apply list_lookup_singleton_Some in Ht as [_ ->]. done.
Qed.

Lemma handles_ok_spawn l t old hs wk :
  l !! t = Some old → is_worker old = false →
  handles_ok l →
  handles_ok (<[t:=TStream (SReturned (length l)) hs]> l ++ [TWorker wk]).
Proof.
  intros Ht Hold Hl t' w hs' Ht'.
  assert (t < length l) as Hlt by (by eapply lookup_lt_Some).
  apply lookup_app_Some in Ht' as [Ht'|[_ Ht']].
  - destruct (decide (t = t')) as [->|Hne].
    + rewrite list_lookup_insert_eq in Ht' by done. simplify_eq.
      exists wk. rewrite lookup_app_r; rewrite length_insert; [|done].
      by rewrite Nat.sub_diag.
    + rewrite list_lookup_insert_ne in Ht' by done.
      destruct (Hl _ _ _ Ht') as (wk' & Hwk'). exists wk'.
      apply lookup_app_l_Some.
      rewrite list_lookup_insert_ne; [done|].
      intros ->.
      assert (Some old = Some (TWorker wk')) as [= ->]
        by (rewrite <- Ht; exact Hwk').
      done.
  - apply list_lookup_singleton_Some in Ht' as [_ ?]. done.
Qed.

Lemma consistent_locked c t old :
  consistent c → threads c !! t = Some old →
  in_critical_section old = 1 → mu c = true.
Proof.
  intros Hc Ht Hold.
  pose proof (sum_list_with_lookup in_critical_section _ _ _ Ht) as Hle.
  rewrite (inv_mu _ Hc) in Hle. destruct (mu c); [done|lia].
Qed.

Lemma consistent_counted c t old :
  consistent c → threads c !! t = Some old →
  attached old ≤ activeBackgroundWorkers c.
Proof.
  intros Hc Ht. rewrite (inv_wg _ Hc).
  by eapply sum_list_with_lookup.
Qed.

(** Under [c.mu] the signal stored in the client is never a closed one,
    except for the [Close] call that has just closed it. *)
Lemma consistent_signal_open c t old ch :
  consistent c → threads c !! t = Some old →
  in_critical_section old = 1 → draining old = false →
  healthyClientCh c = Some ch → ch ∉ closed c.
Proof.
  intros Hc Ht Hcrit Hdr Hch Hin.
  destruct (inv_signal _ Hc _ Hch Hin) as (k & th & Hk & Hth).
  assert (t ≠ k) as Hne by (intros ->; congruence).
  pose proof (sum_list_with_lookup2 in_critical_section _ _ _ _ _ Hne Ht Hk)
    as Hle.
  rewrite (inv_mu _ Hc) in Hle.
  assert (in_critical_section th = 1) as Hth'
    by (by destruct th as [| [] |]).
  destruct (mu c); lia.
Qed.

(** A goroutine moves from [old] to [new] while the shared fields change
    from those of [c] to those of [sh]. *)
Lemma consistent_goto c sh t old new :
  consistent c → threads c !! t = Some old →
  threads sh = threads c → panicked sh = false →
  in_critical_section new + (if mu c then 1 else 0)
    = in_critical_section old + (if mu sh then 1 else 0) →
  attached new + activeBackgroundWorkers c
    = attached old + activeBackgroundWorkers sh →
  (∀ ch, healthyClientCh sh = Some ch → ch ∈ closed sh →
     draining new = true
     ∨ (healthyClientCh c = Some ch ∧ ch ∈ closed c
        ∧ (draining old = true → draining new = true))) →
  (∀ ch, ch ∈ closed sh → ch < next_chan sh) →
  (∀ ch, healthyClientCh sh = Some ch → ch < next_chan sh) →
  (is_worker old = true → is_worker new = true) →
  is_handle new = false ∨ new = old →
  consistent (goto t new sh).
Proof.
  intros Hc Ht Hth Hrun Hmu Hwg Hsig Hac Has Hw Hh.
  pose proof (sum_list_with_insert in_critical_section _ _ _ new Ht) as Hs1.
  pose proof (sum_list_with_insert attached _ _ _ new Ht) as Hs2.
  rewrite (inv_mu _ Hc) in Hs1. rewrite <- (inv_wg _ Hc) in Hs2.
  split; simpl; rewrite ?Hth; try done.
  - destruct (mu c), (mu sh); lia.
  - lia.
  - intros ch Hch Hin. destruct (Hsig _ Hch Hin) as [Hd|(Hch' & Hin' & Hd)].
    + by eapply some_draining_here.
    + eapply some_draining_insert; [done..|]. by eapply inv_signal.
  - eapply handles_ok_insert; [done..|]. by apply inv_handles.
Qed.

(** The same when only the goroutine changes. *)
Lemma consistent_goto_local c t old new :
  consistent c → threads c !! t = Some old →
  in_critical_section new = in_critical_section old →
  attached new = attached old →
  draining new = draining old →
  (is_worker old = true → is_worker new = true) →
  is_handle new = false ∨ new = old →
  consistent (goto t new c).
Proof.
  intros Hc Ht Hmu Hwg Hd Hw Hh.
  eapply consistent_goto; try done.
  - by apply inv_running.
  - lia.
  - lia.
  - intros ch Hch Hin. right. split_and!; [done..|congruence].
  - by apply inv_alloc_closed.
  - by apply inv_alloc_signal.
Qed.

Lemma consistent_call c th :
  consistent c →
  in_critical_section th = 0 → attached th = 0 → is_handle th = false →
  consistent (set_threads (threads c ++ [th]) c).
Proof.
  intros Hc Hmu Hwg Hh. split; simpl.
  - by apply inv_running.
  - rewrite sum_list_with_app, (inv_mu _ Hc). simpl. lia.
  - rewrite sum_list_with_app, <- (inv_wg _ Hc). simpl. lia.
  - intros ch Hch Hin. apply some_draining_app. by eapply inv_signal.
  - by apply inv_alloc_closed.
  - by apply inv_alloc_signal.
  - apply handles_ok_app; [done|]. by apply inv_handles.
Qed.

(** The side conditions of [consistent_goto] that follow from the invariant
    of the state before the step. *)
Ltac inherit Hc :=
  first
    [ by apply (inv_running _ Hc)
    | by apply (inv_alloc_closed _ Hc)
    | by apply (inv_alloc_signal _ Hc)
    | by left
    | lia
    | by (intros ? ? ?; right; split_and!)
    | done ].

Ltac moves Hc :=
  eapply consistent_goto; try done; simpl; try done; try inherit Hc.

Lemma step_Stream_consistent c c' t pc hs :
  consistent c → threads c !! t = Some (TStream pc hs) →
  step_Stream t pc hs c = Some c' → consistent c'.
Proof.
  intros Hc Ht Hstep.
  destruct pc as [| |hc|hc|hc|hc|w]; simpl in Hstep.
  - (* Lock *)
    destruct (mu c) eqn:Hmu; simplify_eq.
    moves Hc. by rewrite Hmu.
  - (* the nil check and the capture, under the lock *)
    destruct (healthyClientCh c) as [ch|] eqn:Hch; simplify_eq.
    + eapply consistent_goto_local; try done. by left.
    + moves Hc.
      * intros ch [= <-] Hin%(inv_alloc_closed _ Hc). lia.
      * intros ch Hin%(inv_alloc_closed _ Hc). lia.
      * intros ch [= <-]. lia.
  - (* Unlock *)
    pose proof (consistent_locked _ _ _ Hc Ht eq_refl) as Hmu. simplify_eq.
    moves Hc. by rewrite Hmu.
  - simplify_eq. eapply consistent_goto_local; try done. by left.
  - (* Add(1) *)
    simplify_eq. moves Hc.
  - (* the goroutine starts *)
    simplify_eq.
    pose proof (sum_list_with_insert in_critical_section _ _ _
                  (TStream (SReturned (length (threads c))) hs) Ht) as Hs1.
    pose proof (sum_list_with_insert attached _ _ _
                  (TStream (SReturned (length (threads c))) hs) Ht) as Hs2.
    simpl in Hs1, Hs2.
    split; simpl.
    + by apply inv_running.
    + rewrite sum_list_with_app, <- (inv_mu _ Hc). simpl. lia.
    + rewrite sum_list_with_app, (inv_wg _ Hc). simpl. lia.
    + intros ch Hch Hin. apply some_draining_app.
      eapply some_draining_insert; [done|done|]. by eapply inv_signal.
    + by apply inv_alloc_closed.
    + by apply inv_alloc_signal.
    + eapply handles_ok_spawn; [done|done|]. by apply inv_handles.
  - done.
Qed.

Lemma step_Close_consistent c c' t pc :
  consistent c → threads c !! t = Some (TClose pc) →
  step_Close t pc c = Some c' → consistent c'.
Proof.
  intros Hc Ht Hstep.
  destruct pc; simpl in Hstep.
  - (* Lock *)
    destruct (mu c) eqn:Hmu; simplify_eq.
    moves Hc. by rewrite Hmu.
  - (* close(c.healthyClientCh): the signal is open, so no panic *)
    destruct (healthyClientCh c) as [ch|] eqn:Hch.
    + pose proof (consistent_signal_open _ _ _ _ Hc Ht eq_refl eq_refl Hch)
        as Hopen.
      rewrite bool_decide_eq_false_2 in Hstep by done. simplify_eq.
      moves Hc.
      intros ch' [->|Hin]%elem_of_cons.
      * by apply (inv_alloc_signal _ Hc).
      * by apply (inv_alloc_closed _ Hc).
    + simplify_eq. moves Hc.
  - (* Wait returns *)
    destruct (activeBackgroundWorkers c) eqn:Hwg; simplify_eq.
    eapply consistent_goto_local; try done. by left.
  - (* c.healthyClientCh = nil *)
    simplify_eq. moves Hc.
  - (* Unlock *)
    pose proof (consistent_locked _ _ _ Hc Ht eq_refl) as Hmu. simplify_eq.
    moves Hc. by rewrite Hmu.
  - done.
Qed.

Lemma worker_move_consistent c t w w' :
  consistent c → threads c !! t = Some (TWorker w) →
  w_pc w ≠ WExited → w_pc w' ≠ WExited →
  consistent (goto t (TWorker w') c).
Proof.
  intros Hc Ht Hpc Hpc'.
  eapply consistent_goto_local; try done; simpl.
  - by destruct (w_pc w), (w_pc w').
  - by left.
Qed.

Lemma step_worker_consistent c c' t w :
  consistent c → threads c !! t = Some (TWorker w) →
  step_worker t w c = Some c' → consistent c'.
Proof.
  intros Hc Ht Hstep. unfold step_worker in Hstep.
  destruct (w_pc w) eqn:Hpc; try done.
  - destruct (w_ctxDone w); simplify_eq;
      eapply worker_move_consistent; try done; simpl; congruence.
  - simplify_eq. eapply worker_move_consistent; try done; simpl; congruence.
  - (* Done(): the counter is positive, so no panic *)
    pose proof (consistent_counted _ _ _ Hc Ht) as Hle.
    simpl in Hle. rewrite Hpc in Hle.
    destruct (activeBackgroundWorkers c) as [|n] eqn:Hwg; [lia|].
    simplify_eq.
    moves Hc. rewrite Hpc. lia.
Qed.

Lemma step_read_consistent c c' t w r :
  consistent c → threads c !! t = Some (TWorker w) →
  step_read t w r c = Some c' → consistent c'.
Proof.
  intros Hc Ht Hstep. unfold step_read in Hstep.
  destruct (w_pc w) eqn:Hpc; try done.
  destruct r; simplify_eq;
    eapply worker_move_consistent; try done; simpl; congruence.
Qed.

Lemma step_select_consistent c c' t w k :
  consistent c → threads c !! t = Some (TWorker w) →
  step_select t w k c = Some c' → consistent c'.
Proof.
  intros Hc Ht Hstep. unfold step_select in Hstep.
  destruct (w_pc w) eqn:Hpc; try done.
  destruct k; repeat case_match; simplify_eq;
    eapply worker_move_consistent; try done; simpl; congruence.
Qed.

Lemma step_consistent a c c' :
  consistent c → step a c = Some c' → consistent c'.
Proof.
  intros Hc Hstep. unfold step in Hstep.
  rewrite (inv_running _ Hc) in Hstep.
  destruct a as [hs| |t|t r|t k|t].
  - simplify_eq. by apply consistent_call.
  - simplify_eq. by apply consistent_call.
  - destruct (threads c !! t) as [[pc hs|pc|w]|] eqn:Ht; [| | |done].
    + by eapply step_Stream_consistent.
    + by eapply step_Close_consistent.
    + by eapply step_worker_consistent.
  - destruct (threads c !! t) as [[pc hs|pc|w]|] eqn:Ht; try done.
    by eapply step_read_consistent.
  - destruct (threads c !! t) as [[pc hs|pc|w]|] eqn:Ht; try done.
    by eapply step_select_consistent.
  - destruct (threads c !! t) as [[pc hs|pc|w]|] eqn:Ht; try done.
    simplify_eq.
    eapply consistent_goto_local; try done. by left.
Qed.

Lemma new_client_consistent : consistent new_client.
Proof.
  split; simpl; try done.
  intros ch Hin. by apply elem_of_nil in Hin.
Qed.

Lemma run_consistent sched : ∀ c c',
  consistent c → run sched c = Some c' → consistent c'.
Proof.
  induction sched as [|a sched IH]; intros c c' Hc Hrun; simpl in Hrun.
  - by simplify_eq.
  - destruct (step a c) as [c1|] eqn:Hstep; [|done].
    eapply IH; [|done]. by eapply step_consistent.
Qed.

(** ** Frame properties of a step *)

Lemma step_other a c c' i th :
  step a c = Some c' → actor a ≠ Some i →
  threads c !! i = Some th → threads c' !! i = Some th.
Proof.
  unfold step, step_Stream, step_Close, step_worker, step_read, step_select,
    goto.
  intros Hs Ha Hi.
  repeat case_match; simplify_eq; simpl in *; try done;
    try apply lookup_app_l_Some;
    rewrite ?list_lookup_insert_ne by congruence; done.
Qed.

Lemma step_handle_stuck a c t w hs :
  threads c !! t = Some (TStream (SReturned w) hs) →
  actor a = Some t → step a c = None.
Proof.
  unfold step. intros Ht Ha.
  destruct (panicked c); [done|].
  destruct a; simplify_eq/=; by rewrite Ht.
Qed.

Lemma step_handle a c c' t w hs :
  step a c = Some c' →
  threads c !! t = Some (TStream (SReturned w) hs) →
  threads c' !! t = Some (TStream (SReturned w) hs).
Proof.
  intros Hs Ht. eapply step_other; [done| |done].
  intros Ha. by rewrite (step_handle_stuck _ _ _ _ _ Ht Ha) in Hs.
Qed.

(** A worker that has exited stays so, and nothing more is delivered on its
    stream. *)
Lemma step_exited a c c' w wk :
  step a c = Some c' →
  threads c !! w = Some (TWorker wk) → w_pc wk = WExited →
  ∃ wk', threads c' !! w = Some (TWorker wk')
         ∧ w_pc wk' = WExited ∧ w_delivered wk' = w_delivered wk.
Proof.
  intros Hs Hw Hpc.
  destruct (decide (actor a = Some w)) as [Ha|Ha].
  - unfold step in Hs. destruct (panicked c); [done|].
    assert (w < length (threads c)) as Hlt by (by eapply lookup_lt_Some).
    destruct a; simplify_eq/=; rewrite Hw in Hs;
      unfold step_worker, step_read, step_select in Hs;
      rewrite ?Hpc in Hs; simplify_eq.
    exists (cancel wk). simpl. by rewrite list_lookup_insert_eq.
  - exists wk. split; [|done]. by eapply step_other.
Qed.

Lemma step_Close_pc a c c' k pc :
  consistent c → step a c = Some c' →
  threads c !! k = Some (TClose pc) →
  ∃ pc', threads c' !! k = Some (TClose pc')
         ∧ (pc' = pc
            ∨ (pc = CLock ∧ pc' = CCloseSignal)
            ∨ (pc = CCloseSignal ∧ pc' = CWait)
            ∨ (pc = CWait ∧ pc' = CClear ∧ activeBackgroundWorkers c = 0)
            ∨ (pc = CClear ∧ pc' = CUnlock)
            ∨ (pc = CUnlock ∧ pc' = CReturned)).
Proof.
  intros Hc Hs Hk.
  pose proof (inv_running _ (step_consistent _ _ _ Hc Hs)) as Hrun.
  destruct (decide (actor a = Some k)) as [Ha|Ha];
    [|exists pc; split; [by eapply step_other|by left]].
  unfold step in Hs. rewrite (inv_running _ Hc) in Hs.
  assert (k < length (threads c)) as Hlt by (by eapply lookup_lt_Some).
  destruct a; simplify_eq/=; rewrite Hk in Hs; [|done..].
  destruct pc; simpl in Hs.
  - destruct (mu c); simplify_eq/=.
    exists CCloseSignal. split; [by apply list_lookup_insert_eq|].
    right; left. by split_and!.
  - exists CWait.
    destruct (healthyClientCh c); [case_bool_decide|]; simplify_eq/=;
      (split; [by apply list_lookup_insert_eq|]);
      right; right; left; by split_and!.
  - destruct (activeBackgroundWorkers c) eqn:Hwg; simplify_eq/=.
    exists CClear. split; [by apply list_lookup_insert_eq|].
    right; right; right; left. by split_and!.
  - simplify_eq/=.
    exists CUnlock. split; [by apply list_lookup_insert_eq|].
    right; right; right; right; left. by split_and!.
  - simplify_eq/=.
    exists CReturned. split; [by apply list_lookup_insert_eq|].
    right; right; right; right; right. by split_and!.
  - done.
Qed.

(** When [Wait] lets a [Close] call through, every worker has exited. *)
Lemma drained c w wk :
  consistent c → activeBackgroundWorkers c = 0 →
  threads c !! w = Some (TWorker wk) → w_pc wk = WExited.
Proof.
  intros Hc Hwg Hw.
  pose proof (consistent_counted _ _ _ Hc Hw) as Hle.
  rewrite Hwg in Hle. simpl in Hle. destruct (w_pc wk); try lia. done.
Qed.

Lemma step_barrier a c c' t hs w k :
  barrier t hs w k c → step a c = Some c' → barrier t hs w k c'.
Proof.
  intros (Hc & Ht & [pc Hk] & Hb) Hs.
  destruct (step_Close_pc _ _ _ _ _ Hc Hs Hk) as (pc' & Hk' & Hpc).
  split_and!.
  - by eapply step_consistent.
  - by eapply step_handle.
  - by exists pc'.
  - intros Hpast.
    destruct (inv_handles _ Hc _ _ _ Ht) as (wk & Hw).
    assert (exited c w) as (wk0 & Hw0 & Hx).
    { unfold past_Wait in Hb, Hpast. rewrite Hk in Hb. rewrite Hk' in Hpast.
      destruct Hpc as [->|[[-> ->]|[[-> ->]|[(-> & -> & Hz)|[[-> ->]|[-> ->]]]]]].
      - by apply Hb.
      - destruct Hpast as [?|[?|?]]; simplify_eq.
      - destruct Hpast as [?|[?|?]]; simplify_eq.
      - exists wk. split; [done|]. by eapply drained.
      - apply Hb. by left.
      - apply Hb. right. by left. }
    destruct (step_exited _ _ _ _ _ Hs Hw0 Hx) as (wk' & Hw' & Hx' & _).
    by exists wk'.
Qed.

Lemma run_barrier sched t hs w k : ∀ c c',
  barrier t hs w k c → run sched c = Some c' → barrier t hs w k c'.
Proof.
  induction sched as [|a sched IH]; intros c c' Hb Hrun; simpl in Hrun.
  - by simplify_eq.
  - destruct (step a c) as [c1|] eqn:Hstep; [|done].
    eapply IH; [|done]. by eapply step_barrier.
Qed.

Lemma run_exited sched w : ∀ c c',
  exited c w → run sched c = Some c' →
  exited c' w ∧ delivered c' w = delivered c w.
Proof.
  induction sched as [|a sched IH]; intros c c' Hx Hrun; simpl in Hrun.
  - by simplify_eq.
  - destruct (step a c) as [c1|] eqn:Hstep; [|done].
    destruct Hx as (wk & Hw & Hpc).
    destruct (step_exited _ _ _ _ _ Hstep Hw Hpc) as (wk' & Hw' & Hpc' & Hd).
    destruct (IH c1 c') as [Hx' Hd']; [by exists wk'|done|].
    split; [done|]. rewrite Hd'. unfold delivered. by rewrite Hw, Hw'.
Qed.

(** ** The claims about the lifecycle *)

(** C1: when a [Stream] call has returned before [Close] is called, then
    once that [Close] call has returned the stream's worker has exited (its
    deferred [close(frameCh)] and [Done] have run), and in whatever follows
    it stays exited and nothing more is delivered on its stream. *)
Theorem Close_is_a_barrier pre mid post c1 c2 c3 t hs w :
  run pre new_client = Some c1 →
  threads c1 !! t = Some (TStream (SReturned w) hs) →
  run (CallClose :: mid) c1 = Some c2 →
  threads c2 !! length (threads c1) = Some (TClose CReturned) →
  run post c2 = Some c3 →
  exited c2 w ∧ exited c3 w ∧ delivered c3 w = delivered c2 w.
Proof.
  intros Hpre Ht Hmid Hk Hpost.
  pose proof (run_consistent _ _ _ new_client_consistent Hpre) as Hc1.
  simpl in Hmid. unfold step in Hmid.
  rewrite (inv_running _ Hc1) in Hmid.
  assert (barrier t hs w (length (threads c1))
            (set_threads (threads c1 ++ [TClose CLock]) c1)) as Hb.
  { split_and!.
    - by apply consistent_call.
    - simpl. by apply lookup_app_l_Some.
    - exists CLock. simpl. rewrite lookup_app_r by done.
      by rewrite Nat.sub_diag.
    - unfold past_Wait. simpl. rewrite lookup_app_r by done.
      rewrite Nat.sub_diag. simpl. intros [?|[?|?]]; simplify_eq. }
  destruct (run_barrier _ _ _ _ _ _ _ Hb Hmid) as (_ & _ & _ & Hx).
  assert (exited c2 w) as Hx2.
  { apply Hx. right. by right. }
  split; [done|]. by eapply run_exited.
Qed.

(** C6: when the worker's [Read] fails, every handler of [errHandlers] is
    called once with the error, in order, nothing is delivered yet, and the
    worker goes to its [select] offering the pair (nil frame, error).  From
    there the send case delivers exactly that pair, after what was
    delivered before, and the worker is back at the top of its loop, from
    where it calls [Read] again unless the stream was cancelled.  Whatever
    the worker does at the [select], it leaves the loop only through the
    cancelled context or the closed signal. *)
Theorem worker_forwards_Read_errors c t w :
  panicked c = false →
  threads c !! t = Some (TWorker w) →
  (w_pc w = WRead → ∀ err,
     ∃ c1 w1,
       step (ReadReturns t (Err err)) c = Some c1
       ∧ threads c1 !! t = Some (TWorker w1)
       ∧ w_pc w1 = WSelect NilImage (Some err)
       ∧ w_handled w1 = w_handled w ++ ((λ h, (h, err)) <$> w_errHandlers w)
       ∧ w_delivered w1 = w_delivered w
       ∧ w_errHandlers w1 = w_errHandlers w
       ∧ w_healthyClientCh w1 = w_healthyClientCh w
       ∧ w_ctxDone w1 = w_ctxDone w
       ∧ w_frameChClosed w1 = w_frameChClosed w)
  ∧ (∀ frame err, w_pc w = WSelect frame (Some err) →
       (∃ c2 w2,
          step (Select t CaseSend) c = Some c2
          ∧ threads c2 !! t = Some (TWorker w2)
          ∧ w_pc w2 = WCheck
          ∧ w_delivered w2 = w_delivered w ++ [(frame, Some err)]
          ∧ w_handled w2 = w_handled w
          ∧ w_ctxDone w2 = w_ctxDone w
          ∧ w_frameChClosed w2 = w_frameChClosed w
          ∧ (w_ctxDone w = false →
             ∃ c3 w3, step (Step t) c2 = Some c3
                      ∧ threads c3 !! t = Some (TWorker w3)
                      ∧ w_pc w3 = WRead
                      ∧ w_delivered w3 = w_delivered w2
                      ∧ w_frameChClosed w3 = w_frameChClosed w))
       ∧ (∀ a c2 w2, actor a = Some t → step a c = Some c2 →
            threads c2 !! t = Some (TWorker w2) →
            (w_pc w2 = w_pc w ∧ w_delivered w2 = w_delivered w)
            ∨ (a = Select t CaseSend ∧ w_pc w2 = WCheck
               ∧ w_delivered w2 = w_delivered w ++ [(frame, Some err)])
            ∨ (w_pc w2 = WCloseFrameCh ∧ w_delivered w2 = w_delivered w
               ∧ (w_ctxDone w = true ∨ w_healthyClientCh w ∈ closed c)))).
Proof.
  intros Hrun Ht.
  assert (t < length (threads c)) as Hlt by (by eapply lookup_lt_Some).
  split.
  - intros Hpc err. eexists _, _. unfold step, step_read.
    rewrite Hrun, Ht, Hpc. split; [done|].
    split; [simpl; by apply list_lookup_insert_eq|]. by split_and!.
  - intros frame err Hpc. split.
    + eexists _, _. unfold step at 1, step_select. rewrite Hrun, Ht, Hpc.
      split; [done|].
      split; [simpl; by apply list_lookup_insert_eq|].
      split_and!; try done.
      intros Hctx. eexists _, _. unfold step, step_worker. simpl.
      rewrite Hrun, list_lookup_insert_eq by done. simpl. rewrite Hctx.
      split; [done|]. simpl.
      split; [apply list_lookup_insert_eq; by rewrite length_insert|].
      by split_and!.
    + intros a c2 w2 Ha Hs Ht2. unfold step in Hs. rewrite Hrun in Hs.
      destruct a; simplify_eq/=; rewrite Ht in Hs.
      * unfold step_worker in Hs. by rewrite Hpc in Hs.
      * unfold step_read in Hs. by rewrite Hpc in Hs.
      * unfold step_select in Hs. rewrite Hpc in Hs.
        destruct k.
        -- destruct (w_ctxDone w) eqn:Hd; simplify_eq/=.
           rewrite list_lookup_insert_eq in Ht2 by done. simplify_eq/=.
           right; right. split_and!; [done..|by left].
        -- case_bool_decide; simplify_eq/=.
           rewrite list_lookup_insert_eq in Ht2 by done. simplify_eq/=.
           right; right. split_and!; [done..|by right].
        -- simplify_eq/=.
           rewrite list_lookup_insert_eq in Ht2 by done. simplify_eq/=.
           right; left. done.
      * simplify_eq/=.
        rewrite list_lookup_insert_eq in Ht2 by done. simplify_eq/=.
        by left.
Qed.

(** C2 fails on the code: in [racing_schedule] the [Close] call has
    returned without waiting for worker 3, which belongs to the closed
    generation 0, and while the client already holds the next signal the
    worker's [select] can take the send case and deliver a frame. *)
Lemma Stream_racing_Close_publishes_across_generations :
  ∃ c c' w,
    run racing_schedule new_client = Some c
    ∧ threads c !! 1 = Some (TClose CReturned)
    ∧ threads c !! 3 = Some (TWorker w)
    ∧ w_healthyClientCh w = 0 ∧ 0 ∈ closed c
    ∧ healthyClientCh c = Some 1
    ∧ activeBackgroundWorkers c = 1
    ∧ step (Select 3 CaseSend) c = Some c'
    ∧ publishes_across_generations c (Select 3 CaseSend) = true
    ∧ delivered c' 3 = [(LazyEncodedImage [] MimeTypeJPEG, None)].
Proof.
  eexists _, _, _. split; [vm_compute; reflexivity|].
  split; [reflexivity|]. split; [reflexivity|]. split; [reflexivity|].
  split; [apply list_elem_of_here|].
  split; [reflexivity|]. split; [reflexivity|].
  split; [vm_compute; reflexivity|].
  split; reflexivity.
Qed.

Lemma Close_is_a_barrier_witness :
  ∃ c1 c2,
    run stream_then_close new_client = Some c1
    ∧ run (CallClose :: close_after_stream) c1 = Some c2
    ∧ exited c2 1
    ∧ delivered c2 1 = [(LazyEncodedImage [] MimeTypeJPEG, None)].
Proof.
  eexists _, _. split; [vm_compute; reflexivity|].
  split; [vm_compute; reflexivity|].
  split; [|vm_compute; reflexivity].
  eapply (proj1 (Close_is_a_barrier stream_then_close close_after_stream []
                   _ _ _ 0 [] 1 _ _ _ _ _)).
  Unshelve. all: try (vm_compute; reflexivity).
Defined.

Lemma worker_forwards_Read_errors_witness :
  run stream_started new_client = Some reading_client
  ∧ ∃ c1 w1 c2 w2,
      step (ReadReturns 1 (Err "unavailable")) reading_client = Some c1
      ∧ threads c1 !! 1 = Some (TWorker w1)
      ∧ w_pc w1 = WSelect NilImage (Some "unavailable")
      ∧ w_handled w1 = [(5, "unavailable"); (6, "unavailable")]
      ∧ step (Select 1 CaseSend) c1 = Some c2
      ∧ threads c2 !! 1 = Some (TWorker w2)
      ∧ w_pc w2 = WCheck
      ∧ w_delivered w2 = [(NilImage, Some "unavailable")].
Proof.
  split; [vm_compute; reflexivity|].
  destruct (proj1 (worker_forwards_Read_errors reading_client 1 reading_worker
                     eq_refl eq_refl) eq_refl "unavailable")
    as (c1 & w1 & Hs1 & Ht1 & Hpc1 & Hh1 & Hd1 & _).
  assert (panicked c1 = false) as Hrun1.
  { vm_compute in Hs1. injection Hs1 as <-. reflexivity. }
  destruct (proj1 (proj2 (worker_forwards_Read_errors c1 1 w1 Hrun1 Ht1)
                     NilImage "unavailable" Hpc1))
    as (c2 & w2 & Hs2 & Ht2 & Hpc2 & Hd2 & _).
  exists c1, w1, c2, w2.
  split; [exact Hs1|]. split; [exact Ht1|]. split; [exact Hpc1|].
  split; [exact Hh1|]. split; [exact Hs2|]. split; [exact Ht2|].
  split; [exact Hpc2|]. rewrite Hd2, Hd1. reflexivity.
Defined.

(** * Further properties of the decode pipeline *)

Section ImagesMore.
Variable image_Decode : bytes → result pixels.

Lemma loop_first_Err todo : ∀ images e,
  Images.loop image_Decode todo images = Err e →
  ∃ i img, todo !! i = Some img
           ∧ Images.dispatch image_Decode img = Err e
           ∧ ∀ j img', j < i → todo !! j = Some img' →
               is_err (Images.dispatch image_Decode img') = false.
Proof.
  induction todo as [|img rest IH]; intros images e; simpl; [done|].
  destruct (Images.dispatch image_Decode img) as [rdkImage|e'] eqn:Hd.
  - intros (i & img0 & Hi & He & Hbefore)%IH.
    exists (S i), img0. split_and!; [done..|].
    intros [|j] img' Hj Hl; simplify_eq/=; [by rewrite Hd|].
    eapply Hbefore; [|done]. lia.
  - intros [= ->]. exists 0, img. split_and!; [done..|]. intros; lia.
Qed.

(** X1: a successful [Images] returns one entry per image of the response,
    in the response's order and under the response's source names, together
    with the response's metadata. *)
Theorem Images_keeps_order_names_metadata resp out md :
  Images.Images image_Decode (Ok resp) = Ok (out, md) →
  ni_SourceName <$> out = img_SourceName <$> resp_Images resp
  ∧ length out = length (resp_Images resp)
  ∧ md = resp_ResponseMetadata resp.
Proof.
  unfold Images.Images.
  destruct (Images.loop image_Decode (resp_Images resp) []) as [images|e]
    eqn:Hl; [|done].
  intros [= <- <-].
  apply loop_Ok in Hl as (new & -> & Hnew). simpl.
  assert (ni_SourceName <$> new = img_SourceName <$> resp_Images resp) as Hn.
  { induction Hnew as [|img ni todo new' [_ Hs] _ IH]; csimpl; [done|].
    by rewrite Hs, IH. }
  split_and!; [done| |done].
  by rewrite <- (length_fmap ni_SourceName), Hn, length_fmap.
Qed.

(** X2: when [Images] fails on a response, the error is the sniffing error
    of the first image that has the unspecified tag and undecodable bytes:
    every image before it was converted, and nothing after it is looked
    at. *)
Theorem Images_returns_first_sniff_error resp e :
  Images.Images image_Decode (Ok resp) = Err e →
  ∃ i img, resp_Images resp !! i = Some img
           ∧ img_Format img = Format_FORMAT_UNSPECIFIED
           ∧ image_Decode (img_Image img) = Err e
           ∧ (∀ j img', j < i → resp_Images resp !! j = Some img' →
                is_err (Images.dispatch image_Decode img') = false)
           ∧ ∀ later,
               Images.Images image_Decode
                 (Ok {| resp_Images := take (S i) (resp_Images resp) ++ later;
                        resp_ResponseMetadata := resp_ResponseMetadata resp |})
               = Err e.
Proof.
  unfold Images.Images.
  destruct (Images.loop image_Decode (resp_Images resp) []) as [images|e']
    eqn:Hl; [done|].
  intros [= ->].
  destruct (loop_first_Err _ _ _ Hl) as (i & img & Hi & Hd & Hbefore).
  destruct (dispatch_Err _ _ _ Hd) as [Hf Hdec].
  exists i, img. split_and!; [done..|].
  intros later. simpl.
  assert (∀ todo images i,
            todo !! i = Some img →
            (∀ j img', j < i → todo !! j = Some img' →
               is_err (Images.dispatch image_Decode img') = false) →
            Images.loop image_Decode (take (S i) todo ++ later) images = Err e)
    as Hgen.
  { clear -Hd. induction todo as [|x todo IH]; intros images [|i] Hi Hb;
      simplify_eq/=.
    - by rewrite Hd.
    - specialize (Hb 0 x ltac:(lia) eq_refl) as Hx.
      destruct (Images.dispatch image_Decode x); [|done].
      apply IH; [done|]. intros j img' Hj Hl. apply (Hb (S j)); [lia|done]. }
  by rewrite (Hgen _ [] _ Hi Hbefore).
Qed.
End ImagesMore.

Lemma Images_keeps_order_names_metadata_witness :
  ∃ out,
    Images.Images sample_Decode (Ok sample_images) = Ok (out, {| CapturedAt := 42%Z |})
    ∧ ni_SourceName <$> out = ["color"; "depth"; "aux"].
Proof.
  eexists. split; [reflexivity|].
  refine (proj1 (Images_keeps_order_names_metadata sample_Decode sample_images
                   _ _ eq_refl)).
Defined.

Lemma Images_returns_first_sniff_error_witness :
  ∃ i img,
    resp_Images sample_images !! i = Some img
    ∧ img_Format img = Format_FORMAT_UNSPECIFIED
    ∧ (λ _, Err "image: unknown format") (img_Image img)
      = @Err pixels "image: unknown format".
Proof.
  destruct (Images_returns_first_sniff_error (λ _, Err "image: unknown format")
              sample_images "image: unknown format" eq_refl)
    as (i & img & Hi & Hf & Hd & _).
  by exists i, img.
Defined.

(** * Further properties of [getExtra], [Read] and [NextPointCloud] *)

(** X3: when [getExtra] succeeds, the struct it returns holds, for every
    key, the value of the data extras if they have the key and the value of
    the context's converted extras otherwise; and it succeeds exactly when
    the conversion (if there is anything to convert) and the data extras are
    both error-free. *)
Theorem getExtra_data_extras_win ctx :
  let converted :=
    match ctx_extra ctx with Some conv => conv | None => Ok ∅ end in
  match getExtra ctx with
  | Ok merged =>
      ∃ ext dataExt,
        converted = Ok ext ∧ ctx_dataExtra ctx = Ok dataExt
        ∧ ∀ k, merged !! k
               = match dataExt !! k with
                 | Some v => Some v
                 | None => ext !! k
                 end
  | Err e =>
      converted = Err e
      ∨ (is_err converted = false ∧ ctx_dataExtra ctx = Err e)
  end.
Proof.
  intros converted. unfold getExtra. fold converted.
  destruct converted as [ext|e]; [|by left].
  destruct (ctx_dataExtra ctx) as [dataExt|e]; [|by right].
  exists ext, dataExt. split_and!; [done..|].
  intros k. unfold proto_Merge. rewrite lookup_union.
  by destruct (dataExt !! k), (ext !! k).
Qed.

Section ReadMore.
Variable decode_as : string → bytes → result pixels.

(** X4: [Read] contacts the server with one request only, made of the
    client's name, the hinted mimetype without its lazy qualifier and the
    merged extras; two servers that answer that request alike give the same
    [Read], and when the extras cannot be read no request is made at all. *)
Theorem Read_depends_on_one_request name ctx GetImage1 GetImage2 :
  (∀ ext, getExtra ctx = Ok ext →
     GetImage1 (Read_request name ctx ext)
     = GetImage2 (Read_request name ctx ext)) →
  Read.Read decode_as GetImage1 name ctx
  = Read.Read decode_as GetImage2 name ctx.
Proof.
  intros Hsame. unfold Read.Read.
  destruct (getExtra ctx) as [ext|e]; [|done].
  specialize (Hsame ext eq_refl). unfold Read_request in Hsame.
  by rewrite Hsame.
Qed.

(** X5: when the hint carries no lazy qualifier and the server answers
    with the very mimetype that was asked for, [Read] logs nothing and
    returns the response's bytes, undecoded, as a lazily encoded image of
    that mimetype. *)
Theorem Read_match_is_silent_and_lazy name ctx GetImage ext resp :
  let mimeType := MIMETypeHint ctx "" in
  CheckLazyMIMEType mimeType = (mimeType, false) →
  getExtra ctx = Ok ext →
  GetImage (Read_request name ctx ext) = Ok resp →
  gi_MimeType resp = mimeType →
  Read.Read decode_as GetImage name ctx
  = (Ok (LazyEncodedImage (gi_Image resp) mimeType), []).
Proof.
  intros mimeType Hq Hext Hrpc Hm.
  unfold Read.Read, Read_request in *. fold mimeType in Hrpc |- *.
  rewrite Hext, Hq in *. simpl in *. rewrite Hrpc.
  unfold Read.negotiate. rewrite decide_False by (by intros []).
  by rewrite DecodeImage_WithLazy.
Qed.
End ReadMore.

Section PointCloudFacts.
Context {cloud : Type}.
Variable ReadPCD : bytes → result cloud.
Variable GetPointCloud : GetPointCloudRequest → result GetPointCloudResponse.

(** X6: [NextPointCloud] returns a point cloud only if the data extras
    could be read, the server answered the request for [MimeTypePCD] (made
    of the client's name and the data extras) with exactly that mimetype,
    and the parser accepted the returned bytes.  Otherwise its error is the
    first of: the error of the data extras, the error of the call, "unknown
    pc mime type" followed by the mimetype received, the parser's error. *)
Theorem NextPointCloud_outcome name ctx :
  let request ext :=
    {| pcreq_Name := name; pcreq_MimeType := MimeTypePCD;
       pcreq_Extra := ext |} in
  match PointCloud.NextPointCloud ReadPCD GetPointCloud name ctx with
  | Ok pc =>
      ∃ ext resp,
        ctx_dataExtra ctx = Ok ext
        ∧ GetPointCloud (request ext) = Ok resp
        ∧ pc_MimeType resp = MimeTypePCD
        ∧ ReadPCD (pc_PointCloud resp) = Ok pc
  | Err e =>
      ctx_dataExtra ctx = Err e
      ∨ ∃ ext, ctx_dataExtra ctx = Ok ext
          ∧ (GetPointCloud (request ext) = Err e
             ∨ ∃ resp, GetPointCloud (request ext) = Ok resp
                 ∧ ((pc_MimeType resp ≠ MimeTypePCD
                     ∧ e = "unknown pc mime type " +:+ pc_MimeType resp)
                    ∨ (pc_MimeType resp = MimeTypePCD
                       ∧ ReadPCD (pc_PointCloud resp) = Err e)))
  end.
Proof.
  intros request. unfold PointCloud.NextPointCloud. fold (request).
  destruct (ctx_dataExtra ctx) as [ext|e]; [|by left].
  change {| pcreq_Name := name; pcreq_MimeType := MimeTypePCD;
            pcreq_Extra := ext |} with (request ext).
  destruct (GetPointCloud (request ext)) as [resp|e] eqn:Hrpc;
    [|right; exists ext; split; [done|by left]].
  destruct (decide (pc_MimeType resp = MimeTypePCD)) as [Hm|Hm].
  - rewrite decide_False by (by intros []).
    destruct (ReadPCD (pc_PointCloud resp)) as [pc|e] eqn:Hpc.
    + by exists ext, resp.
    + right. exists ext. split; [done|]. right. exists resp.
      split; [done|]. by right.
  - rewrite decide_True by done.
    right. exists ext. split; [done|]. right. exists resp.
    split; [done|]. by left.
Qed.
End PointCloudFacts.

Lemma Read_depends_on_one_request_witness :
  Read.Read (λ _ _, Err "no codec")
    (λ req, if decide (gireq_MimeType req = "image/jpeg")
            then Ok {| gi_MimeType := "image/jpeg"; gi_Image := [Byte.xff] |}
            else Err "unsupported") "cam" sample_context
  = Read.Read (λ _ _, Err "no codec")
      (λ _, Ok {| gi_MimeType := "image/jpeg"; gi_Image := [Byte.xff] |})
      "cam" sample_context.
Proof.
  apply Read_depends_on_one_request. intros ext _. reflexivity.
Defined.

Lemma Read_match_is_silent_and_lazy_witness :
  Read.Read (λ _ _, Err "no codec")
    (λ _, Ok {| gi_MimeType := "image/png"; gi_Image := [Byte.x89] |}) "cam"
    {| ctx_mimeHint := Some "image/png"; ctx_extra := None;
       ctx_dataExtra := Ok ∅ |}
  = (Ok (LazyEncodedImage [Byte.x89] "image/png"), []).
Proof.
  apply (Read_match_is_silent_and_lazy (λ _ _, Err "no codec") "cam"
           {| ctx_mimeHint := Some "image/png"; ctx_extra := None;
              ctx_dataExtra := Ok ∅ |}
           (λ _, Ok {| gi_MimeType := "image/png"; gi_Image := [Byte.x89] |})
           (proto_Merge ∅ ∅)
           {| gi_MimeType := "image/png"; gi_Image := [Byte.x89] |});
    reflexivity.
Defined.

(** * Further properties of the properties resolver *)

Section ResolverMore.
Variable registry : gmap string (list float → result Distorter).
Variable CheckValid : option PinholeCameraIntrinsics → option string.

(** X7: a successful [Properties] copies the mimetype list and the
    point-cloud flag of the response and maps the intrinsics field by
    field, none when the response has none. *)
Theorem Properties_copies_response resp props :
  Resolver.Properties_pair registry (Ok resp) = (props, None) →
  MimeTypes props = pr_MimeTypes resp
  ∧ SupportsPCD props = pr_SupportsPcd resp
  ∧ IntrinsicParams props
    = (λ i, {| Width := WidthPx i; Height := HeightPx i;
               Fx := FocalXPx i; Fy := FocalYPx i;
               Ppx := CenterXPx i; Ppy := CenterYPx i |})
      <$> pr_IntrinsicParameters resp.
Proof.
  intros Hp.
  destruct (pr_DistortionParameters resp) as [dp|] eqn:Hdp.
  - destruct (decide (dp_Model dp = "")) as [Hm|Hm].
    + rewrite Properties_pair_no_model in Hp by eauto. by simplify_eq.
    + rewrite (Properties_pair_model _ _ _ Hdp Hm) in Hp.
      destruct (Resolver.NewDistorter _ _ _); by simplify_eq.
  - rewrite Properties_pair_no_model in Hp by eauto. by simplify_eq.
Qed.

(** X8: the distortion in a result of [Properties] is never anything but
    what a registered constructor built: if it is present, the response
    named a non-empty model, the registry knows that model, and its
    constructor returned this instance for the response's parameters. *)
Theorem Properties_distortion_comes_from_registry rpc props err distorter :
  Resolver.Properties_pair registry rpc = (props, err) →
  DistortionParams props = Some distorter →
  err = None
  ∧ ∃ resp dp construct,
      rpc = Ok resp
      ∧ pr_DistortionParameters resp = Some dp
      ∧ dp_Model dp ≠ ""
      ∧ registry !! dp_Model dp = Some construct
      ∧ construct (dp_Parameters dp) = Ok distorter.
Proof.
  intros Hp Hd. destruct rpc as [resp|e]; [|by simplify_eq/=].
  destruct (pr_DistortionParameters resp) as [dp|] eqn:Hdp.
  - destruct (decide (dp_Model dp = "")) as [Hm|Hm].
    + rewrite Properties_pair_no_model in Hp by eauto. by simplify_eq/=.
    + rewrite (Properties_pair_model _ _ _ Hdp Hm) in Hp.
      unfold Resolver.NewDistorter in Hp.
      destruct (registry !! dp_Model dp) as [construct|] eqn:Hreg;
        [|by simplify_eq/=].
      destruct (construct (dp_Parameters dp)) as [d|e] eqn:Hc;
        simplify_eq/=.
      split; [done|]. by exists resp, dp, construct.
  - rewrite Properties_pair_no_model in Hp by eauto. by simplify_eq/=.
Qed.

(** X9: [Projector] returns either a projector or an error, never both and
    never neither.  The projector is the intrinsics mapped from the
    response, accepted by [CheckValid]; the error is the one of
    [Properties], passed on before [CheckValid] is asked, or else the one
    of [CheckValid]. *)
Theorem Projector_outcome rpc :
  match Resolver.Projector registry CheckValid rpc with
  | (Some intrinsics, None) =>
      ∃ props, Resolver.Properties_pair registry rpc = (props, None)
               ∧ intrinsics = IntrinsicParams props
               ∧ CheckValid intrinsics = None
  | (None, Some err) =>
      (Resolver.Properties_pair registry rpc).2 = Some err
      ∨ ((Resolver.Properties_pair registry rpc).2 = None
         ∧ CheckValid (IntrinsicParams
                         (Resolver.Properties_pair registry rpc).1)
           = Some err)
  | _ => False
  end.
Proof.
  unfold Resolver.Projector.
  destruct (Resolver.Properties_pair registry rpc) as [props [e|]];
    [by left|].
  destruct (CheckValid (IntrinsicParams props)) as [e|] eqn:Hv.
  - by right.
  - by exists props.
Qed.
End ResolverMore.

Lemma Properties_copies_response_witness :
  ∃ props,
    Resolver.Properties_pair sample_registry (Ok sample_properties)
    = (props, None)
    ∧ MimeTypes props = ["image/jpeg"; "image/png"]
    ∧ SupportsPCD props = true.
Proof.
  eexists. split; [reflexivity|].
  destruct (Properties_copies_response sample_registry sample_properties _
              eq_refl) as (Hm & Hs & _).
  by split.
Defined.

Lemma Properties_distortion_comes_from_registry_witness :
  ∃ construct,
    sample_registry !! "brown_conrady" = Some construct
    ∧ construct [0.5%float; 0.25%float]
      = Ok {| ModelType := "brown_conrady";
              Parameters := [0.5%float; 0.25%float] |}.
Proof.
  destruct (Properties_distortion_comes_from_registry sample_registry
              (Ok sample_properties) _ _
              {| ModelType := "brown_conrady";
                 Parameters := [0.5%float; 0.25%float] |} eq_refl eq_refl)
    as (_ & resp & dp & construct & Hr & Hdp & _ & Hreg & Hc).
  injection Hr as <-. injection Hdp as <-.
  by exists construct.
Defined.

(** * Further properties of the stream lifecycle *)

(** X10: in every state the client can reach, at most one goroutine is
    between [c.mu.Lock()] and [c.mu.Unlock()], and then the mutex is held:
    the nil check, the making and the capture of the signal in [Stream]
    and the closing, draining and clearing in [Close] exclude each other. *)
Theorem critical_sections_exclude sched c i j a b :
  run sched new_client = Some c →
  i ≠ j → threads c !! i = Some a → threads c !! j = Some b →
  in_critical_section a = 1 →
  in_critical_section b = 0 ∧ mu c = true.
Proof.
  intros Hrun Hne Hi Hj Ha.
  pose proof (run_consistent _ _ _ new_client_consistent Hrun) as Hc.
  pose proof (sum_list_with_lookup2 in_critical_section _ _ _ _ _ Hne Hi Hj)
    as Hle.
  rewrite (inv_mu _ Hc) in Hle.
  split; [|exact (consistent_locked _ _ _ Hc Hi Ha)].
  revert Hle. rewrite Ha. destruct (mu c); lia.
Qed.

Lemma sum_list_with_zero {A} (f : A → nat) (l : list A) :
  sum_list_with f l = 0 ↔ ∀ i x, l !! i = Some x → f x = 0.
Proof.
  split.
  - intros Hz i x Hi. pose proof (sum_list_with_lookup f _ _ _ Hi). lia.
  - induction l as [|x l IH]; intros Hall; simpl; [done|].
    rewrite (Hall 0 x eq_refl), IH; [done|].
    intros i y Hi. by apply (Hall (S i)).
Qed.

(** X11: in every reachable state the WaitGroup counter is zero exactly
    when no [Stream] call stands between its [Add(1)] and the start of its
    goroutine and every worker has run its deferred [Done]. *)
Theorem counter_zero_iff_no_worker_attached sched c :
  run sched new_client = Some c →
  (activeBackgroundWorkers c = 0 ↔
     ∀ t th, threads c !! t = Some th →
       (∀ hc hs, th ≠ TStream (SGo hc) hs)
       ∧ (∀ w, th = TWorker w → w_pc w = WExited)).
Proof.
  intros Hrun.
  pose proof (run_consistent _ _ _ new_client_consistent Hrun) as Hc.
  rewrite (inv_wg _ Hc), sum_list_with_zero.
  split; intros Hall t th Ht.
  - specialize (Hall t th Ht). split.
    + intros hc hs ->. done.
    + intros w ->. simpl in Hall. by destruct (w_pc w).
  - destruct (Hall t th Ht) as [Hgo Hw].
    destruct th as [[] hs| |w]; simpl; try done.
    + by destruct (Hgo hc hs).
    + by rewrite (Hw w eq_refl).
Qed.

(** ** Deliveries follow the order of the Read calls *)

(** A goroutine that a step brings into being is at its first statement. *)
Lemma step_new_thread a c c' t :
  step a c = Some c' → threads c !! t = None →
  threads c' !! t = None
  ∨ (∃ hs, threads c' !! t = Some (TStream SLock hs))
  ∨ threads c' !! t = Some (TClose CLock)
  ∨ (∃ hc hs, threads c' !! t = Some (TWorker (new_worker hc hs))).
Proof.
  intros Hs Hn. pose proof Hn as Hge. apply lookup_ge_None in Hge.
  assert (∀ x, (threads c ++ [x]) !! t = None ∨ (threads c ++ [x]) !! t = Some x)
    as Happ.
  { intros x. destruct ((threads c ++ [x]) !! t) as [y|] eqn:Hy; [|by left].
    right. apply lookup_app_Some in Hy as [Hy|[_ Hy]]; [congruence|].
    apply list_lookup_singleton_Some in Hy as [_ Hy]. by subst. }
  assert (∀ i x, <[i := x]> (threads c) !! t = None) as Hins.
  { intros i x. apply lookup_ge_None. by rewrite length_insert. }
  unfold step in Hs. destruct (panicked c); [done|].
  destruct a as [hs| |i|i r|i k|i].
  - simplify_eq/=. destruct (Happ (TStream SLock hs)) as [-> | ->]; eauto.
  - simplify_eq/=. destruct (Happ (TClose CLock)) as [-> | ->]; eauto.
  - destruct (threads c !! i) as [[pc hs|pc|w]|] eqn:Hi; [| | |done].
    + destruct pc; simpl in Hs; repeat case_match; simplify_eq/=;
        rewrite ?Hins; eauto.
      destruct ((<[i:=TStream (SReturned (length (threads c))) hs]> (threads c)
                 ++ [TWorker (new_worker hc hs)]) !! t) as [y|] eqn:Hy;
        [|by left].
      apply lookup_app_Some in Hy as [Hy|[_ Hy]].
      * by rewrite Hins in Hy.
      * apply list_lookup_singleton_Some in Hy as [_ Hy]. subst y. eauto 10.
    + destruct pc; simpl in Hs; repeat case_match; simplify_eq/=;
        rewrite ?Hins; eauto.
    + unfold step_worker in Hs; repeat case_match; simplify_eq/=;
        rewrite ?Hins; eauto.
  - destruct (threads c !! i) as [[pc hs|pc|w]|] eqn:Hi; try done.
    unfold step_read in Hs; repeat case_match; simplify_eq/=;
      rewrite ?Hins; eauto.
  - destruct (threads c !! i) as [[pc hs|pc|w]|] eqn:Hi; try done.
    unfold step_select in Hs; repeat case_match; simplify_eq/=;
      rewrite ?Hins; eauto.
  - destruct (threads c !! i) as [[pc hs|pc|w]|] eqn:Hi; try done.
    simplify_eq/=. rewrite ?Hins; eauto.
Qed.

Lemma Read_result_other a t : actor a ≠ Some t → Read_result t a = [].
Proof.
  destruct a; simpl; try done. intros Hne. case_decide; [|done].
  by subst.
Qed.

Lemma step_in_Read_order a c c' t reads :
  step a c = Some c' →
  in_Read_order reads (threads c !! t) →
  in_Read_order (reads ++ Read_result t a) (threads c' !! t).
Proof.
  intros Hs Hinv.
  destruct (threads c !! t) as [th|] eqn:Ht.
  - destruct (decide (actor a = Some t)) as [Ha|Ha].
    + assert (t < length (threads c)) as Hlt by (by eapply lookup_lt_Some).
      unfold step in Hs. destruct (panicked c); [done|].
      destruct a as [hs| |i|i r|i k|i]; simplify_eq/=; rewrite Ht in Hs.
      * rewrite app_nil_r.
        destruct th as [pc hs|pc|w].
        -- destruct pc; simpl in Hs; repeat case_match; simplify_eq/=;
             rewrite ?list_lookup_insert_eq by done; try done.
           rewrite lookup_app_l by (by rewrite length_insert).
           by rewrite list_lookup_insert_eq.
        -- destruct pc; simpl in Hs; repeat case_match; simplify_eq/=;
             rewrite ?list_lookup_insert_eq by done; try done.
           by rewrite Ht.
        -- unfold step_worker in Hs. simpl in Hinv.
           destruct (w_pc w) eqn:Hpc; repeat case_match; simplify_eq/=;
             rewrite ?list_lookup_insert_eq by done; simpl;
             rewrite ?Ht; simpl; rewrite ?Hpc; eauto.
      * destruct th as [pc hs|pc|w]; try done.
        unfold step_read in Hs. simpl in Hinv.
        rewrite decide_True by done.
        destruct (w_pc w) eqn:Hpc; try done.
        destruct r; simplify_eq/=;
          rewrite list_lookup_insert_eq by done; simpl; done.
      * rewrite app_nil_r.
        destruct th as [pc hs|pc|w]; try done.
        unfold step_select in Hs. simpl in Hinv.
        destruct (w_pc w) eqn:Hpc; try done.
        destruct k; repeat case_match; simplify_eq/=;
          rewrite list_lookup_insert_eq by done; simpl; eauto.
      * rewrite app_nil_r.
        destruct th as [pc hs|pc|w]; try done.
        simplify_eq/=. rewrite list_lookup_insert_eq by done. done.
    + rewrite Read_result_other, app_nil_r by done.
      by rewrite (step_other _ _ _ _ _ Hs Ha Ht).
  - simpl in Hinv. subst reads.
    assert (Read_result t a = []) as ->.
    { destruct a as [| | |i r| |]; simpl; try done.
      case_decide; [|done]. subst i.
      unfold step in Hs. rewrite Ht in Hs. by destruct (panicked c). }
    destruct (step_new_thread _ _ _ _ Hs Ht)
      as [-> | [[hs ->] | [-> | (hc & hs & ->)]]]; done.
Qed.

Lemma run_in_Read_order t sched : ∀ c c' reads,
  run sched c = Some c' →
  in_Read_order reads (threads c !! t) →
  in_Read_order (reads ++ reads_of t sched) (threads c' !! t).
Proof.
  induction sched as [|a sched IH]; intros c c' reads Hrun Hinv;
    simpl in Hrun.
  - simplify_eq. simpl. by rewrite app_nil_r.
  - destruct (step a c) as [c1|] eqn:Hstep; [|done].
    simpl. rewrite app_assoc. eapply IH; [done|].
    by eapply step_in_Read_order.
Qed.

(** X12: on every stream, pairs are delivered in the order in which the
    worker's [Read] calls returned them, none skipped and none twice: what
    the consumer has received is the sequence of the results [Read] has
    returned to the worker, in order, short of at most the last, which the
    worker still offers at its [select] or has dropped on leaving the loop
    there. *)
Theorem deliveries_follow_Read_order sched c t :
  run sched new_client = Some c →
  delivered c t `prefix_of` reads_of t sched
  ∧ length (reads_of t sched) ≤ S (length (delivered c t))
  ∧ (∀ w, threads c !! t = Some (TWorker w) →
       w_pc w = WCheck ∨ w_pc w = WRead →
       w_delivered w = reads_of t sched)
  ∧ (∀ w frame err, threads c !! t = Some (TWorker w) →
       w_pc w = WSelect frame err →
       reads_of t sched = w_delivered w ++ [(frame, err)]).
Proof.
  intros Hrun.
  pose proof (run_in_Read_order t _ _ _ [] Hrun eq_refl) as Hinv.
  simpl in Hinv. unfold delivered.
  destruct (threads c !! t) as [[pc hs|pc|w]|] eqn:Ht; simpl in Hinv;
    try (rewrite Hinv; split_and!; [done|simpl; lia|done..]).
  assert (w_delivered w `prefix_of` reads_of t sched
          ∧ length (reads_of t sched) ≤ S (length (w_delivered w))) as [Hp Hl].
  { destruct (w_pc w); first
      [ rewrite Hinv; split; [done|lia]
      | rewrite Hinv; split;
        [by apply prefix_app_r|rewrite length_app; simpl; lia]
      | destruct Hinv as [->|[p ->]];
        [split; [done|lia]
        |split; [by apply prefix_app_r|rewrite length_app; simpl; lia]] ]. }
  split_and!; [done..| |].
  - intros w' [= <-] [Hpc|Hpc]; by rewrite Hpc in Hinv.
  - intros w' frame err [= <-] Hpc. by rewrite Hpc in Hinv.
Qed.

Lemma new_worker_ok hc hs : worker_ok (new_worker hc hs).
Proof. split_and!; simpl; by try apply Forall_nil. Qed.

Lemma step_workers_ok a c c' :
  workers_ok c → step a c = Some c' → workers_ok c'.
Proof.
  intros Hok Hs i w' Hi. revert Hs.
  unfold step, step_Stream, step_Close, step_worker, step_read, step_select,
    goto.
  intros Hs.
  repeat case_match; simplify_eq/=;
    try (apply lookup_app_Some in Hi as [Hi|[_ Hi]];
         [|apply list_lookup_singleton_Some in Hi as [_ Hi]; simplify_eq;
           try apply new_worker_ok]);
    try by eapply Hok.
  all: match type of Hi with
       | <[?t:=_]> _ !! _ = _ =>
           destruct (decide (t = i)) as [->|Hne];
           [rewrite list_lookup_insert_eq in Hi by (by eapply lookup_lt_Some)
           |rewrite list_lookup_insert_ne in Hi by done; by eapply Hok]
       end.
  all: simplify_eq; try done.
  all: match goal with
       | Hw : threads _ !! _ = Some (TWorker ?w) |- _ =>
           destruct (Hok _ _ Hw) as (Hpc & Hdel & Hhan)
       end.
  all: match goal with
       | Hpc : match w_pc ?w with _ => _ end, E : w_pc ?w = _ |- _ =>
           rewrite E in Hpc
       | _ => idtac
       end.
  all: unfold worker_ok; simpl; split_and!; try done; try tauto.
  all: try (by destruct Hpc).
  - (* Read failed: the pair has no frame, the handlers are registered *)
    apply Forall_app. split; [done|].
    apply Forall_fmap, Forall_forall. intros h Hh. done.
  - (* the pair is delivered *)
    apply Forall_app. split; [done|]. apply Forall_singleton. by destruct Hpc.
  - (* the consumer cancels *)
    revert Hpc. destruct (w_pc w); intuition.
Qed.


Lemma run_workers_ok sched : ∀ c c',
  workers_ok c → run sched c = Some c' → workers_ok c'.
Proof.
  induction sched as [|a sched IH]; intros c c' Hok Hrun; simpl in Hrun.
  - by simplify_eq.
  - destruct (step a c) as [c1|] eqn:Hstep; [|done].
    eapply IH; [|done]. by eapply step_workers_ok.
Qed.

Lemma new_client_workers_ok : workers_ok new_client.
Proof. intros t w Ht. simpl in Ht. by rewrite lookup_nil in Ht. Qed.

(** X13: in every reachable state a worker's [frameCh] is closed exactly
    when the worker has run its deferred [close(frameCh)], so nothing is
    ever sent on it after the close; and a worker that has left its loop
    has its stream context cancelled, by the consumer or by the worker
    itself on the closed signal: a failing [Read] alone never ends it. *)
Theorem worker_closes_frameCh_last sched c t w :
  run sched new_client = Some c →
  threads c !! t = Some (TWorker w) →
  (w_frameChClosed w = true ↔ w_pc w = WDone ∨ w_pc w = WExited)
  ∧ (w_pc w = WCloseFrameCh ∨ w_pc w = WDone ∨ w_pc w = WExited →
     w_ctxDone w = true).
Proof.
  intros Hrun Ht.
  destruct (run_workers_ok _ _ _ new_client_workers_ok Hrun _ _ Ht)
    as (Hpc & _ & _).
  revert Hpc. destruct (w_pc w); intros Hpc; (split; [split|]);
    intuition (try congruence).
Qed.

(** X14: in every reachable state, every pair delivered on a stream that
    carries an error carries the nil frame, as [Read] returns it, and an
    error handler has been called only if it was passed to the [Stream]
    call that started the worker. *)
Theorem delivered_errors_carry_no_frame sched c t w :
  run sched new_client = Some c →
  threads c !! t = Some (TWorker w) →
  (∀ frame err, (frame, Some err) ∈ w_delivered w → frame = NilImage)
  ∧ (∀ h err, (h, err) ∈ w_handled w → h ∈ w_errHandlers w).
Proof.
  intros Hrun Ht.
  destruct (run_workers_ok _ _ _ new_client_workers_ok Hrun _ _ Ht)
    as (_ & Hdel & Hhan).
  rewrite Forall_forall in Hdel. rewrite Forall_forall in Hhan. split.
  - intros frame err Hin. by apply (Hdel _ Hin).
  - intros h err Hin. by apply (Hhan _ Hin).
Qed.

(** ** Calls that run alone *)

Lemma lookup_last (l : list thread) x : (l ++ [x]) !! length l = Some x.
Proof. by apply list_lookup_middle. Qed.

Lemma insert_last (l : list thread) x y :
  <[length l := y]> (l ++ [x]) = l ++ [y].
Proof. rewrite insert_app_r_alt by done. by rewrite Nat.sub_diag. Qed.

Lemma run_step a rest c c1 :
  step a c = Some c1 → run (a :: rest) c = run rest c1.
Proof. intros Hs. simpl. by rewrite Hs. Qed.

(** With the mutex free, the signal stored in the client is open. *)
Lemma idle_signal_open c ch :
  consistent c → mu c = false →
  healthyClientCh c = Some ch → ch ∉ closed c.
Proof.
  intros Hc Hmu Hch Hin.
  destruct (inv_signal _ Hc _ Hch Hin) as (k & th & Hk & Hth).
  pose proof (sum_list_with_lookup in_critical_section _ _ _ Hk) as Hle.
  rewrite (inv_mu _ Hc), Hmu in Hle.
  destruct th as [| [] |]; simplify_eq/=; lia.
Qed.

(** One statement of the goroutine that was started last. *)
Ltac last_statement :=
  unfold running, step; simpl; rewrite ?lookup_last; simpl;
  unfold goto; simpl; rewrite ?insert_last; reflexivity.

Section Alone.
Variables (h : option nat) (n : nat) (cl : list nat) (nx : nat).
Variables (l : list thread) (hs : list nat).

Abbreviation st := running.

Lemma Stream_Lock_last :
  step (Step (length l)) (st false h n cl nx (l ++ [TStream SLock hs]))
  = Some (st true h n cl nx (l ++ [TStream SEnsure hs])).
Proof. last_statement. Qed.

Lemma Stream_Ensure_last :
  step (Step (length l)) (st true h n cl nx (l ++ [TStream SEnsure hs]))
  = Some (st true (Some (default nx h)) n cl
            (match h with Some _ => nx | None => S nx end)
            (l ++ [TStream (SUnlock (default nx h)) hs])).
Proof. destruct h; last_statement. Qed.

Lemma Stream_Unlock_last hc :
  step (Step (length l)) (st true h n cl nx (l ++ [TStream (SUnlock hc) hs]))
  = Some (st false h n cl nx (l ++ [TStream (SNewStream hc) hs])).
Proof. last_statement. Qed.

Lemma Stream_NewStream_last hc :
  step (Step (length l))
    (st false h n cl nx (l ++ [TStream (SNewStream hc) hs]))
  = Some (st false h n cl nx (l ++ [TStream (SAdd hc) hs])).
Proof. last_statement. Qed.

Lemma Stream_Add_last hc :
  step (Step (length l)) (st false h n cl nx (l ++ [TStream (SAdd hc) hs]))
  = Some (st false h (S n) cl nx (l ++ [TStream (SGo hc) hs])).
Proof. last_statement. Qed.

Lemma Stream_Go_last hc :
  step (Step (length l)) (st false h n cl nx (l ++ [TStream (SGo hc) hs]))
  = Some (st false h n cl nx
            (l ++ [TStream (SReturned (S (length l))) hs;
                   TWorker (new_worker hc hs)])).
Proof.
  unfold running, step; simpl. rewrite lookup_last. simpl.
  rewrite insert_last, length_app, Nat.add_1_r, <- app_assoc. reflexivity.
Qed.

Lemma Close_Lock_last :
  step (Step (length l)) (st false h n cl nx (l ++ [TClose CLock]))
  = Some (st true h n cl nx (l ++ [TClose CCloseSignal])).
Proof. last_statement. Qed.

Lemma Close_CloseSignal_last :
  (∀ ch, h = Some ch → ch ∉ cl) →
  step (Step (length l)) (st true h n cl nx (l ++ [TClose CCloseSignal]))
  = Some (st true h n
            (match h with Some ch => ch :: cl | None => cl end) nx
            (l ++ [TClose CWait])).
Proof.
  intros Hopen. unfold running, step; simpl. rewrite lookup_last. simpl.
  destruct h as [ch|]; simpl.
  - rewrite bool_decide_eq_false_2 by (by apply Hopen).
    unfold goto; simpl. by rewrite insert_last.
  - unfold goto; simpl. by rewrite insert_last.
Qed.

Lemma Close_Wait_last :
  step (Step (length l)) (st true h 0 cl nx (l ++ [TClose CWait]))
  = Some (st true h 0 cl nx (l ++ [TClose CClear])).
Proof. last_statement. Qed.

Lemma Close_Clear_last :
  step (Step (length l)) (st true h n cl nx (l ++ [TClose CClear]))
  = Some (st true None n cl nx (l ++ [TClose CUnlock])).
Proof. last_statement. Qed.

Lemma Close_Unlock_last :
  step (Step (length l)) (st true h n cl nx (l ++ [TClose CUnlock]))
  = Some (st false h n cl nx (l ++ [TClose CReturned])).
Proof. last_statement. Qed.
End Alone.

(** X15: on a reachable client whose mutex is free and whose WaitGroup
    counter is zero, a [Close] call that runs alone goes through all its
    statements and returns, without panic: it closes the stored signal if
    there is one, finds nothing to wait for, and leaves the field nil and
    the mutex free. *)
Theorem Close_alone_returns sched c :
  run sched new_client = Some c →
  mu c = false → activeBackgroundWorkers c = 0 →
  let k := length (threads c) in
  ∃ c', run [CallClose; Step k; Step k; Step k; Step k; Step k] c = Some c'
        ∧ threads c' = threads c ++ [TClose CReturned]
        ∧ healthyClientCh c' = None
        ∧ closed c' = match healthyClientCh c with
                      | Some ch => ch :: closed c
                      | None => closed c
                      end
        ∧ mu c' = false ∧ activeBackgroundWorkers c' = 0
        ∧ panicked c' = false.
Proof.
  intros Hrun Hmu Hwg.
  pose proof (run_consistent _ _ _ new_client_consistent Hrun) as Hc.
  pose proof (inv_running _ Hc) as Hpan.
  pose proof (λ ch, idle_signal_open c ch Hc Hmu) as Hopen.
  clear Hrun Hc. destruct c as [m h n cl nx l p].
  cbn [mu healthyClientCh activeBackgroundWorkers closed next_chan threads
       panicked] in *.
  subst m n p.
  change {| mu := false; healthyClientCh := h; activeBackgroundWorkers := 0;
            closed := cl; next_chan := nx; threads := l; panicked := false |}
    with (running false h 0 cl nx l).
  exists (running false None 0
            (match h with Some ch => ch :: cl | None => cl end) nx
            (l ++ [TClose CReturned])).
  split; [|done].
  rewrite (run_step CallClose _ _ (running false h 0 cl nx (l ++ [TClose CLock])))
    by done.
  erewrite run_step by apply Close_Lock_last.
  erewrite run_step by (apply Close_CloseSignal_last; exact Hopen).
  erewrite run_step by apply Close_Wait_last.
  erewrite run_step by apply Close_Clear_last.
  erewrite run_step by apply Close_Unlock_last.
  done.
Qed.

(** X16: on a reachable client whose mutex is free, a [Stream] call that
    runs alone returns after six statements: the counter has gone up by
    one, the mutex is free again, and the handle names a new worker, at the
    top of its loop, bound to the signal now stored in the client, which is
    open: the one that was stored, or a newly made one if the field was
    nil. *)
Theorem Stream_alone_returns sched c hs :
  run sched new_client = Some c →
  mu c = false →
  let k := length (threads c) in
  let ch := default (next_chan c) (healthyClientCh c) in
  ∃ c', run [CallStream hs; Step k; Step k; Step k; Step k; Step k; Step k] c
        = Some c'
        ∧ threads c'
          = threads c ++ [TStream (SReturned (S k)) hs;
                          TWorker (new_worker ch hs)]
        ∧ healthyClientCh c' = Some ch
        ∧ (ch ∉ closed c')
        ∧ activeBackgroundWorkers c' = S (activeBackgroundWorkers c)
        ∧ mu c' = false
        ∧ panicked c' = false.
Proof.
  intros Hrun Hmu.
  pose proof (run_consistent _ _ _ new_client_consistent Hrun) as Hc.
  pose proof (inv_running _ Hc) as Hpan.
  pose proof (λ ch, idle_signal_open c ch Hc Hmu) as Hopen.
  pose proof (inv_alloc_closed _ Hc) as Hfresh.
  clear Hrun Hc. destruct c as [m h n cl nx l p].
  cbn [mu healthyClientCh activeBackgroundWorkers closed next_chan threads
       panicked] in *.
  subst m p.
  change {| mu := false; healthyClientCh := h; activeBackgroundWorkers := n;
            closed := cl; next_chan := nx; threads := l; panicked := false |}
    with (running false h n cl nx l).
  exists (running false (Some (default nx h)) (S n) cl
            (match h with Some _ => nx | None => S nx end)
            (l ++ [TStream (SReturned (S (length l))) hs;
                   TWorker (new_worker (default nx h) hs)])).
  split.
  - rewrite (run_step (CallStream hs) _ _
               (running false h n cl nx (l ++ [TStream SLock hs]))) by done.
    erewrite run_step by apply Stream_Lock_last.
    erewrite run_step by apply Stream_Ensure_last.
    erewrite run_step by apply Stream_Unlock_last.
    erewrite run_step by apply Stream_NewStream_last.
    erewrite run_step by apply Stream_Add_last.
    erewrite run_step by apply Stream_Go_last.
    done.
  - simpl. split_and!; try done.
    destruct h as [ch|]; simpl.
    + by apply Hopen.
    + intros Hin%Hfresh. lia.
Qed.

Lemma Close_alone_returns_witness :
  run stream_cancelled new_client = Some cancelled_client
  ∧ ∃ c', run [CallClose; Step 2; Step 2; Step 2; Step 2; Step 2]
            cancelled_client = Some c'
          ∧ closed c' = [0].
Proof.
  assert (run stream_cancelled new_client = Some cancelled_client) as Hrun
    by (vm_compute; reflexivity).
  split; [exact Hrun|].
  destruct (Close_alone_returns stream_cancelled cancelled_client Hrun
              eq_refl eq_refl) as (c' & Hr & _ & _ & Hcl & _).
  exists c'. split; [exact Hr|exact Hcl].
Defined.

Lemma Stream_alone_returns_witness :
  ∃ c', run [CallStream [5]; Step 0; Step 0; Step 0; Step 0; Step 0; Step 0]
          new_client = Some c'
        ∧ threads c' = [TStream (SReturned 1) [5]; TWorker (new_worker 0 [5])].
Proof.
  destruct (Stream_alone_returns [] new_client [5] eq_refl eq_refl)
    as (c' & Hr & Ht & _).
  exists c'. split; [exact Hr|exact Ht].
Defined.

Lemma critical_sections_exclude_witness :
  ∃ c, run close_twice_then_stream new_client = Some c ∧ mu c = true.
Proof.
  eexists. split; [vm_compute; reflexivity|].
  refine (proj2 (critical_sections_exclude close_twice_then_stream _ 2 0
                   (TStream (SUnlock 0) []) (TClose CReturned) _ _ _ _ _));
    [vm_compute; reflexivity|lia|reflexivity..].
Defined.

Lemma counter_zero_iff_no_worker_attached_witness :
  run stream_cancelled new_client = Some cancelled_client
  ∧ ∃ w, threads cancelled_client !! 1 = Some (TWorker w)
         ∧ w_pc w = WExited.
Proof.
  assert (run stream_cancelled new_client = Some cancelled_client) as Hrun
    by (vm_compute; reflexivity).
  split; [exact Hrun|].
  eexists. split; [reflexivity|].
  exact (proj2 (proj1 (counter_zero_iff_no_worker_attached stream_cancelled
                         cancelled_client Hrun) eq_refl 1 _ eq_refl)
           _ eq_refl).
Defined.

Lemma deliveries_follow_Read_order_witness :
  reads_of 1 stream_cancelled
  = [(LazyEncodedImage [] MimeTypeJPEG, None); (NilImage, Some "unavailable")]
  ∧ delivered cancelled_client 1 `prefix_of` reads_of 1 stream_cancelled.
Proof.
  split; [reflexivity|].
  apply (deliveries_follow_Read_order stream_cancelled cancelled_client 1).
  vm_compute. reflexivity.
Defined.

Lemma worker_closes_frameCh_last_witness :
  ∃ w, threads cancelled_client !! 1 = Some (TWorker w)
       ∧ w_ctxDone w = true.
Proof.
  eexists. split; [reflexivity|].
  refine (proj2 (worker_closes_frameCh_last stream_cancelled cancelled_client
                   1 _ _ eq_refl) _).
  - vm_compute. reflexivity.
  - right. right. reflexivity.
Defined.

Lemma delivered_errors_carry_no_frame_witness :
  ∃ c w, run (stream_started ++ [ReadReturns 1 (Err "unavailable")])
           new_client = Some c
         ∧ threads c !! 1 = Some (TWorker w)
         ∧ 6 ∈ w_errHandlers w.
Proof.
  eexists _, _. split; [vm_compute; reflexivity|].
  split; [vm_compute; reflexivity|].
  refine (proj2 (delivered_errors_carry_no_frame
                   (stream_started ++ [ReadReturns 1 (Err "unavailable")])
                   _ 1 _ _ _) 6 "unavailable"%string _).
  - vm_compute. reflexivity.
  - vm_compute. reflexivity.
  - simpl. apply list_elem_of_further, list_elem_of_here.
Defined.

(** ** One open generation *)

Lemma some_draining_insert_inv l t new :
  some_draining (<[t:=new]> l) → draining new = true ∨ some_draining l.
Proof.
  intros (k & th & Hk & Hth).
  destruct (decide (t = k)) as [->|Hne].
  - destruct (decide (k < length l)) as [Hlt|Hge].
    + rewrite list_lookup_insert_eq in Hk by done. simplify_eq. by left.
    + rewrite list_insert_ge in Hk by lia. right. by exists k, th.
  - rewrite list_lookup_insert_ne in Hk by done. right. by exists k, th.
Qed.

Lemma some_draining_app_inv l th :
  draining th = false → some_draining (l ++ [th]) → some_draining l.
Proof.
  intros Hth (k & th' & Hk & Hth').
  apply lookup_app_Some in Hk as [Hk|[_ Hk]]; [by exists k, th'|].
  apply list_lookup_singleton_Some in Hk as [_ ->]. congruence.
Qed.

Lemma generations_goto c sh t old new :
  generations c → threads c !! t = Some old → threads sh = threads c →
  next_chan c ≤ next_chan sh →
  (∀ ch, ch < next_chan sh → ch ∈ closed sh ∨ healthyClientCh sh = Some ch) →
  (draining new = true ∨ some_draining (threads c) →
   ∀ ch, healthyClientCh sh = Some ch → ch ∈ closed sh) →
  (∀ hc, held_signal new = Some hc → hc < next_chan sh) →
  generations (goto t new sh).
Proof.
  intros Hg Ht Hth Hnx HJ HK HL. split; simpl; rewrite ?Hth.
  - done.
  - intros Hd%some_draining_insert_inv. by apply HK.
  - intros i th hc Hi Hheld.
    destruct (decide (t = i)) as [->|Hne].
    + rewrite list_lookup_insert_eq in Hi by (by eapply lookup_lt_Some).
      simplify_eq. by apply HL.
    + rewrite list_lookup_insert_ne in Hi by done.
      pose proof (gen_held _ Hg _ _ _ Hi Hheld). lia.
Qed.

(** The same when the signal field, the closed channels and the allocator
    are untouched. *)
Lemma generations_goto_same c sh t old new :
  generations c → threads c !! t = Some old → threads sh = threads c →
  healthyClientCh sh = healthyClientCh c → closed sh = closed c →
  next_chan sh = next_chan c →
  (draining new = true → draining old = true) →
  (∀ hc, held_signal new = Some hc →
     held_signal old = Some hc
     ∨ (healthyClientCh c = Some hc ∧ hc < next_chan c)) →
  generations (goto t new sh).
Proof.
  intros Hg Ht Hth Hh Hcl Hnx Hd Hheld.
  eapply generations_goto; try done; rewrite ?Hh, ?Hcl, ?Hnx.
  - done.
  - by apply gen_one_open.
  - intros [Hnew|Hsome]; apply (gen_draining _ Hg); [|done].
    exists t, old. split; [done|by apply Hd].
  - intros hc [Hold|[_ Hlt]]%Hheld; [|done].
    by eapply gen_held.
Qed.

Lemma generations_call c th :
  generations c → draining th = false → held_signal th = None →
  generations (set_threads (threads c ++ [th]) c).
Proof.
  intros Hg Hd Hh. split; simpl.
  - by apply gen_one_open.
  - intros Hs%some_draining_app_inv; [|done]. by apply gen_draining.
  - intros i th' hc Hi Hheld.
    apply lookup_app_Some in Hi as [Hi|[_ Hi]]; [by eapply gen_held|].
    apply list_lookup_singleton_Some in Hi as [_ ->]. congruence.
Qed.

Ltac same_generation Hg :=
  eapply generations_goto_same; try done; simpl; try done;
  try (by intros ? [= <-]; left).

Lemma step_Stream_generations c c' t pc hs :
  consistent c → generations c → threads c !! t = Some (TStream pc hs) →
  step_Stream t pc hs c = Some c' → generations c'.
Proof.
  intros Hc Hg Ht Hstep.
  destruct pc as [| |hc|hc|hc|hc|w]; simpl in Hstep.
  - destruct (mu c); simplify_eq. same_generation Hg.
  - destruct (healthyClientCh c) as [ch|] eqn:Hch; simplify_eq.
    + same_generation Hg. intros hc [= <-]. right. split; [done|].
      by apply (inv_alloc_signal _ Hc).
    + eapply generations_goto; try done; simpl.
      * lia.
      * intros ch Hlt. destruct (decide (ch = next_chan c)) as [->|Hne];
          [by right|]. left.
        destruct (gen_one_open _ Hg ch) as [Hin|Hf]; [lia|done|congruence].
      * intros [Hd|(k & th & Hk & Hth)]; [done|].
        assert (t ≠ k) as Hne by (intros ->; simplify_eq; done).
        pose proof (sum_list_with_lookup2 in_critical_section _ _ _ _ _
                      Hne Ht Hk) as Hle.
        rewrite (inv_mu _ Hc) in Hle.
        assert (in_critical_section th = 1) as Hth'
          by (by destruct th as [| [] |]).
        simpl in Hle. destruct (mu c); lia.
      * intros hc [= <-]. lia.
  - simplify_eq. same_generation Hg.
  - simplify_eq. same_generation Hg.
  - simplify_eq. same_generation Hg.
  - simplify_eq. split; simpl.
    + by apply gen_one_open.
    + intros Hs%some_draining_app_inv; [|done].
      apply some_draining_insert_inv in Hs as [Hs|Hs]; [done|].
      by apply gen_draining.
    + intros i th h Hi Hheld.
      apply lookup_app_Some in Hi as [Hi|[_ Hi]].
      * destruct (decide (t = i)) as [->|Hne].
        -- rewrite list_lookup_insert_eq in Hi by (by eapply lookup_lt_Some).
           by simplify_eq.
        -- rewrite list_lookup_insert_ne in Hi by done. by eapply gen_held.
      * apply list_lookup_singleton_Some in Hi as [_ <-].
        simpl in Hheld. simplify_eq. by eapply (gen_held _ Hg _ _ _ Ht).
  - done.
Qed.

Lemma step_Close_generations c c' t pc :
  generations c → threads c !! t = Some (TClose pc) →
  step_Close t pc c = Some c' → panicked c' = false → generations c'.
Proof.
  intros Hg Ht Hstep Hrun.
  destruct pc; simpl in Hstep.
  - destruct (mu c); simplify_eq. same_generation Hg.
  - destruct (healthyClientCh c) as [ch|] eqn:Hch;
      [case_bool_decide|]; simplify_eq/=.
    + eapply generations_goto; try done; simpl.
      * intros ch' Hlt. rewrite elem_of_cons.
        destruct (gen_one_open _ Hg ch' Hlt) as [?|?]; [by left; right|].
        left. left. congruence.
      * intros _ ch' Hch'. rewrite Hch in Hch'. injection Hch' as <-.
        apply list_elem_of_here.
    + eapply generations_goto; try done; simpl.
      * by apply gen_one_open.
      * intros _ ch'. by rewrite Hch.
  - destruct (activeBackgroundWorkers c); simplify_eq. same_generation Hg.
  - simplify_eq. eapply generations_goto; try done; simpl.
    + intros ch Hlt. left.
      destruct (gen_one_open _ Hg ch Hlt) as [?|Hf]; [done|].
      apply (gen_draining _ Hg); [|done]. by exists t, (TClose CClear).
  - simplify_eq. same_generation Hg.
  - done.
Qed.

Lemma worker_move_generations c sh t w w' :
  generations c → threads c !! t = Some (TWorker w) →
  threads sh = threads c →
  healthyClientCh sh = healthyClientCh c → closed sh = closed c →
  next_chan sh = next_chan c →
  w_healthyClientCh w' = w_healthyClientCh w →
  generations (goto t (TWorker w') sh).
Proof.
  intros Hg Ht Hth Hh Hcl Hnx Hw.
  eapply generations_goto_same; try done.
  simpl. intros hc [= <-]. left. by rewrite Hw.
Qed.

Lemma step_generations a c c' :
  consistent c → generations c → step a c = Some c' → generations c'.
Proof.
  intros Hc Hg Hstep.
  pose proof (inv_running _ (step_consistent _ _ _ Hc Hstep)) as Hrun.
  unfold step in Hstep. rewrite (inv_running _ Hc) in Hstep.
  destruct a as [hs| |t|t r|t k|t].
  - simplify_eq. by apply generations_call.
  - simplify_eq. by apply generations_call.
  - destruct (threads c !! t) as [[pc hs|pc|w]|] eqn:Ht; [| | |done].
    + by eapply step_Stream_generations.
    + by eapply step_Close_generations.
    + unfold step_worker in Hstep.
      repeat case_match; simplify_eq/=;
        by eapply worker_move_generations.
  - destruct (threads c !! t) as [[pc hs|pc|w]|] eqn:Ht; try done.
    unfold step_read in Hstep.
    repeat case_match; simplify_eq/=; by eapply worker_move_generations.
  - destruct (threads c !! t) as [[pc hs|pc|w]|] eqn:Ht; try done.
    unfold step_select in Hstep.
    repeat case_match; simplify_eq/=; by eapply worker_move_generations.
  - destruct (threads c !! t) as [[pc hs|pc|w]|] eqn:Ht; try done.
    simplify_eq. by eapply worker_move_generations.
Qed.

Lemma new_client_generations : generations new_client.
Proof.
  split; simpl.
  - intros ch Hlt. lia.
  - done.
  - intros t th hc Ht. by rewrite lookup_nil in Ht.
Qed.

Lemma run_generations sched : ∀ c c',
  consistent c → generations c → run sched c = Some c' → generations c'.
Proof.
  induction sched as [|a sched IH]; intros c c' Hc Hg Hrun; simpl in Hrun.
  - by simplify_eq.
  - destruct (step a c) as [c1|] eqn:Hstep; [|done].
    eapply IH; [| |done].
    + by eapply step_consistent.
    + by eapply step_generations.
Qed.

(** X17: in every reachable state, a goroutine whose generation signal is
    still open, be it a [Stream] call past its capture or a worker, holds
    the very signal stored in the client: there is at most one open
    generation, and closing the stored signal reaches every goroutine that
    is not already on a closed one. *)
Theorem open_signal_is_the_current_one sched c t th hc :
  run sched new_client = Some c →
  threads c !! t = Some th → held_signal th = Some hc →
  hc ∉ closed c →
  healthyClientCh c = Some hc.
Proof.
  intros Hrun Ht Hheld Hopen.
  pose proof (run_generations _ _ _ new_client_consistent
                new_client_generations Hrun) as Hg.
  destruct (gen_one_open _ Hg hc) as [Hin|Hcur]; [|done..].
  by eapply gen_held.
Qed.

Lemma open_signal_is_the_current_one_witness :
  ∃ c, run stream_then_close new_client = Some c
       ∧ healthyClientCh c = Some 0.
Proof.
  eexists. split; [vm_compute; reflexivity|].
  refine (open_signal_is_the_current_one stream_then_close _ 1
            (TWorker
               {| w_pc := WSelect NilImage (Some "unavailable"%string);
                  w_healthyClientCh := 0; w_errHandlers := [];
                  w_ctxDone := false; w_frameChClosed := false;
                  w_delivered := [(LazyEncodedImage [] MimeTypeJPEG, None)];
                  w_handled := [] |}) 0 _ _ _ _).
  - vm_compute. reflexivity.
  - vm_compute. reflexivity.
  - reflexivity.
  - simpl. apply not_elem_of_nil.
Defined.

(** ** Close calls with no Stream call in progress *)










